(** * smap: a generic map guarded by a reader-writer lock, and its two iterators

    Shallow embedding of [smap.go].  Go maps are reference objects, so the
    model keeps them in a store indexed by addresses: an [sMap], the copy
    returned by [Raw] or [Filter] and the snapshot of an [rIter] each name
    an address, and two handles alias exactly when they name the same one.

    The order in which [range] hands out the entries of a map is not fixed
    by the language; it is taken from an oracle that may answer differently
    at each loop.

    The calls on [mu] bracket the bodies of the methods and do not change
    what a single caller observes; the methods are given first without
    them, and then with them over a model of [sync.RWMutex]. *)

From stdpp Require Import gmap list sorting strings.
From Stdlib Require Import ZArith Lia.

(** ** Go values *)

(** The zero value of a type ([var k K]). *)
Class Zero (T : Type) := zero : T.

Global Instance Z_Zero : Zero Z := 0%Z.
Global Instance N_Zero : Zero N := 0%N.

(** [errors.New]. *)
Inductive error : Type := errorString (s : string).

Definition errors_New (s : string) : error := errorString s.

(** Addresses of map objects. *)
Definition loc : Type := positive.

(** The entries of a map in the order of one [range] loop; the first
    argument tells the loops apart. *)
Class RangeOrder (K V : Type) `{Countable K} : Type := {
  range : nat → gmap K V → list (K * V);
  range_perm : ∀ n mp, range n mp ≡ₚ map_to_list mp
}.

(** One admissible order: that of the underlying finite map. *)
Global Instance canonical_RangeOrder (K V : Type) `{Countable K} :
  RangeOrder K V :=
  {| range := λ _ mp, map_to_list mp;
     range_perm := λ _ mp, reflexivity (map_to_list mp) |}.

(** ** [sort.SliceStable]

    Insertion sort as [sort.SliceStable] runs it on a block of up to 20
    elements: the element at index [j] moves left while [less(j, j-1)].
    Longer slices are sorted block by block and merged; with a strict weak
    ordering every stable sort returns the same sequence
    ([SliceStable_unique] below), so the result is this one too.  With a
    comparator that is no strict weak ordering and more than 20 keys the
    two may order the keys differently; what carries over then is that
    the result holds the same keys.  The sorted prefix is kept with its
    last element first. *)
Section sort.
Context {K : Type} (f : K → K → bool).

Fixpoint insertLeft (x : K) (prefix : list K) : list K :=
  match prefix with
  | [] => [x]
  | y :: rest => if f x y then y :: insertLeft x rest else x :: y :: rest
  end.

Definition SliceStable (keys : list K) : list K :=
  reverse (foldl (λ prefix x, insertLeft x prefix) [] keys).

(** Neither key is less than the other. *)
Definition equiv_keys (a b : K) : bool := negb (f a b) && negb (f b a).

Record StrictWeakOrder : Prop := {
  swo_irrefl : ∀ a, f a a = false;
  swo_trans : ∀ a b c, f a b = true → f b c = true → f a c = true;
  swo_equiv_trans : ∀ a b c,
    equiv_keys a b = true → equiv_keys b c = true → equiv_keys a c = true
}.
End sort.

Section smap.
Context {K : Type} `{Countable K} {V : Type}.
Context `{!Zero K, !Zero V, !RangeOrder K V}.

(** ** The store *)

Record state : Type := mkState {
  heap : gmap loc (gmap K V);
  rnd : nat
}.

(** The map object at an address. *)
Definition deref (σ : state) (l : loc) : gmap K V := default ∅ (heap σ !! l).

(** A value of type [map[K]V]: nil or the address of a map object. *)
Definition len (σ : state) (mp : option loc) : nat :=
  match mp with
  | None => 0
  | Some l => size (deref σ l)
  end.

(** [v, ok := mp[k]] *)
Definition index (σ : state) (mp : option loc) (k : K) : V * bool :=
  match mp with
  | None => (zero, false)
  | Some l =>
      match deref σ l !! k with
      | Some v => (v, true)
      | None => (zero, false)
      end
  end.

(** [mp[k] = v] *)
Definition store (σ : state) (l : loc) (k : K) (v : V) : state :=
  mkState (<[l := <[k := v]> (deref σ l)]> (heap σ)) (rnd σ).

(** [delete(mp, k)] *)
Definition delete_key (σ : state) (l : loc) (k : K) : state :=
  mkState (<[l := delete k (deref σ l)]> (heap σ)) (rnd σ).

(** [map[K]V{}] and [make(map[K]V, n)]: a new, empty map object. *)
Definition make_map (σ : state) : loc * state :=
  let l := fresh (dom (heap σ)) in
  (l, mkState (<[l := ∅]> (heap σ)) (rnd σ)).

(** The entries a [range] loop over [mp] visits, in order. *)
Definition range_map (σ : state) (mp : option loc) : list (K * V) * state :=
  (match mp with
   | None => []
   | Some l => range (rnd σ) (deref σ l)
   end,
   mkState (heap σ) (S (rnd σ))).

(** ** [sMap] *)

Record sMap : Type := mk_sMap { m : loc }.

Definition Merge (s : sMap) (src : option loc) (overwrite : bool) (σ : state) : state :=
  if bool_decide (len σ src = 0) then σ
  else
    let '(es, σ1) := range_map σ src in
    foldl (λ σ' '(k, v),
             if negb overwrite && (index σ' (Some (m s)) k).2 then σ'
             else store σ' (m s) k v)
          σ1 es.

Definition New (init : option loc) (σ : state) : sMap * state :=
  let '(l, σ1) := make_map σ in
  let r := mk_sMap l in
  (r, Merge r init true σ1).

Definition Len (s : sMap) (σ : state) : nat := len σ (Some (m s)).

Definition Clone (s : sMap) (σ : state) : sMap * state := New (Some (m s)) σ.

Definition Get (s : sMap) (k : K) (σ : state) : V * bool := index σ (Some (m s)) k.

Definition Set_ (s : sMap) (k : K) (v : V) (σ : state) : state := store σ (m s) k v.

Definition CAS (s : sMap) (k : K) (v : V) (σ : state) : bool * state :=
  if (index σ (Some (m s)) k).2 then (false, σ)
  else (true, store σ (m s) k v).

Definition Raw (s : sMap) (σ : state) : option loc * state :=
  let '(ret, σ1) := make_map σ in
  let '(es, σ2) := range_map σ1 (Some (m s)) in
  (Some ret, foldl (λ σ' '(k, v), store σ' ret k v) σ2 es).

Definition Delete (s : sMap) (keys : list K) (σ : state) : state :=
  foldl (λ σ' k, delete_key σ' (m s) k) σ keys.

Definition Keys (s : sMap) (σ : state) : list K * state :=
  let '(es, σ1) := range_map σ (Some (m s)) in
  (foldl (λ ks '(k, _), ks ++ [k]) [] es, σ1).

Definition Filter (cb : K → V → bool) (s : sMap) (σ : state) : option loc * state :=
  let '(ret, σ1) := make_map σ in
  let '(es, σ2) := range_map σ1 (Some (m s)) in
  (Some ret,
   foldl (λ σ' '(k, v), if cb k v then store σ' ret k v else σ') σ2 es).

(** ** Slices of keys: nil or a sequence *)

Definition slice_len (ks : option (list K)) : nat :=
  match ks with
  | None => 0
  | Some l => length l
  end.

(** [ks[i]]; every use is guarded by a bounds test. *)
Definition slice_index (ks : option (list K)) (i : nat) : K :=
  match ks with
  | None => zero
  | Some l => default zero (l !! i)
  end.

(** The optional comparator of [Iter] and [RIter]. *)
Definition sort_keys (f : option (K → K → bool)) (keys : list K) : list K :=
  match f with
  | Some f => SliceStable f keys
  | None => keys
  end.

(** ** [sMapIter], the iterator that reads the map itself

    The index [i] is an [int] that stays between 0 and the number of
    keys; it is a natural number here.  The field [l], the read side of
    [mu], is left out with the other calls on the lock. *)

Record sMapIter : Type := mk_sMapIter {
  it_i : nat;
  it_keys : option (list K);
  it_k : K;
  it_v : V;
  it_m : option sMap
}.

Definition Iter (f : option (K → K → bool)) (s : sMap) (σ : state) : sMapIter * state :=
  let '(keys, σ1) := Keys s σ in
  (mk_sMapIter 0 (Some (sort_keys f keys)) zero zero (Some s), σ1).

(** [i.m.m]: the map of the iterator; [i.m] is nil only once closed,
    where [Next] returns before it reads it. *)
Definition it_map (it : sMapIter) : option loc :=
  match it_m it with
  | Some s => Some (m s)
  | None => None
  end.

Definition sMapIter_Next (it : sMapIter) (σ : state) : bool * sMapIter :=
  if bool_decide (slice_len (it_keys it) ≤ it_i it) then (false, it)
  else
    let k := slice_index (it_keys it) (it_i it) in
    let v := (index σ (it_map it) k).1 in
    (true, mk_sMapIter (S (it_i it)) (it_keys it) k v (it_m it)).

Definition sMapIter_Key (it : sMapIter) : K * option error :=
  match it_keys it with
  | None => (zero, Some (errors_New "iterator closed"))
  | Some _ => (it_k it, None)
  end.

Definition sMapIter_Val (it : sMapIter) : V * option error :=
  match it_keys it with
  | None => (zero, Some (errors_New "iterator closed"))
  | Some _ => (it_v it, None)
  end.

Definition sMapIter_Close (it : sMapIter) : sMapIter :=
  mk_sMapIter 0 None zero zero None.

(** ** [rIter], the iterator over a copy *)

Record rIter : Type := mk_rIter {
  r_i : nat;
  r_keys : option (list K);
  r_k : K;
  r_v : V;
  r_m : option loc
}.

Definition RIter (f : option (K → K → bool)) (s : sMap) (σ : state) : rIter * state :=
  let '(cpy, σ1) := Raw s σ in
  let '(es, σ2) := range_map σ1 cpy in
  let keys := foldl (λ ks '(k, _), ks ++ [k]) [] es in
  (mk_rIter 0 (Some (sort_keys f keys)) zero zero cpy, σ2).

Definition rIter_Rewind (r : rIter) : bool * rIter :=
  let r' := mk_rIter 0 (r_keys r) (r_k r) (r_v r) (r_m r) in
  if bool_decide (slice_len (r_keys r') ≤ r_i r') then (false, r')
  else (true, r').

Definition rIter_Next (r : rIter) (σ : state) : bool * rIter :=
  if bool_decide (slice_len (r_keys r) ≤ r_i r) then (false, r)
  else
    let k := slice_index (r_keys r) (r_i r) in
    let v := (index σ (r_m r) k).1 in
    (true, mk_rIter (S (r_i r)) (r_keys r) k v (r_m r)).

Definition rIter_Prev (r : rIter) (σ : state) : bool * rIter :=
  if bool_decide (r_i r = 0) then (false, r)
  else
    let i := pred (r_i r) in
    let k := slice_index (r_keys r) i in
    let v := (index σ (r_m r) k).1 in
    (true, mk_rIter i (r_keys r) k v (r_m r)).

Definition rIter_End (r : rIter) (σ : state) : bool * rIter :=
  rIter_Prev (mk_rIter (slice_len (r_keys r)) (r_keys r) (r_k r) (r_v r) (r_m r)) σ.

Definition rIter_Key (r : rIter) : K * option error :=
  match r_keys r with
  | None => (zero, Some (errors_New "iterator closed"))
  | Some _ => (r_k r, None)
  end.

Definition rIter_Val (r : rIter) : V * option error :=
  match r_keys r with
  | None => (zero, Some (errors_New "iterator closed"))
  | Some _ => (r_v r, None)
  end.

Definition rIter_Close (r : rIter) : rIter :=
  mk_rIter 0 None zero zero None.

(** ** Vocabulary of the statements *)

(** The entries of a value of type [map[K]V]. *)
Definition entries (σ : state) (mp : option loc) : gmap K V :=
  match mp with
  | None => ∅
  | Some l => deref σ l
  end.

(** The map of [s] has been made. *)
Definition allocated (s : sMap) (σ : state) : Prop := is_Some (heap σ !! m s).

(** ** Callers *)

(** The calls that write to a map. *)
Inductive mutation : Type :=
| MSet (k : K) (v : V)
| MCAS (k : K) (v : V)
| MDelete (keys : list K)
| MMerge (src : option loc) (overwrite : bool).

Definition mutate (s : sMap) (c : mutation) (σ : state) : state :=
  match c with
  | MSet k v => Set_ s k v σ
  | MCAS k v => (CAS s k v σ).2
  | MDelete keys => Delete s keys σ
  | MMerge src overwrite => Merge s src overwrite σ
  end.

Definition mutate_all (s : sMap) (cs : list mutation) (σ : state) : state :=
  foldl (λ σ' c, mutate s c σ') σ cs.

(** [for it.Next() { k, err := it.Key(); v, err := it.Val(); ... }]:
    the entries seen, or nothing when an error shows up or the fuel
    runs out before [Next] returns false. *)
Fixpoint sMapIter_loop (fuel : nat) (it : sMapIter) (σ : state) : option (list (K * V)) :=
  match fuel with
  | 0 => None
  | S fuel =>
      let '(ok, it') := sMapIter_Next it σ in
      if ok then
        match sMapIter_Key it', sMapIter_Val it' with
        | (k, None), (v, None) => cons (k, v) <$> sMapIter_loop fuel it' σ
        | _, _ => None
        end
      else Some []
  end.

Fixpoint rIter_loop (fuel : nat) (r : rIter) (σ : state) : option (list (K * V)) :=
  match fuel with
  | 0 => None
  | S fuel =>
      let '(ok, r') := rIter_Next r σ in
      if ok then
        match rIter_Key r', rIter_Val r' with
        | (k, None), (v, None) => cons (k, v) <$> rIter_loop fuel r' σ
        | _, _ => None
        end
      else Some []
  end.

(** The calls that move an open iterator. *)
Inductive rcall : Type := RNext | RPrev | RRewind | REnd.

Definition rIter_call (c : rcall) (r : rIter) (σ : state) : bool * rIter :=
  match c with
  | RNext => rIter_Next r σ
  | RPrev => rIter_Prev r σ
  | RRewind => rIter_Rewind r
  | REnd => rIter_End r σ
  end.

Definition rIter_calls (cs : list rcall) (r : rIter) (σ : state) : rIter :=
  foldl (λ r' c, (rIter_call c r' σ).2) r cs.

(** [n] calls of [Next]. *)
Definition sMapIter_Nexts (n : nat) (it : sMapIter) (σ : state) : sMapIter :=
  Nat.iter n (λ it', (sMapIter_Next it' σ).2) it.

Definition rIter_Nexts (n : nat) (r : rIter) (σ : state) : rIter :=
  Nat.iter n (λ r', (rIter_Next r' σ).2) r.

(** [for ok := r.End(); ok; ok = r.Prev() { k, err := r.Key(); v, err := r.Val(); ... }]:
    the walk from the last key back to the first, as [TestRIter] does it
    with [End], [Key], [Val] and [Prev]. *)
Fixpoint rIter_back (fuel : nat) (r : rIter) (σ : state) : option (list (K * V)) :=
  match fuel with
  | 0 => None
  | S fuel =>
      match rIter_Key r, rIter_Val r with
      | (k, None), (v, None) =>
          let '(ok, r') := rIter_Prev r σ in
          if ok then cons (k, v) <$> rIter_back fuel r' σ
          else Some [(k, v)]
      | _, _ => None
      end
  end.

Definition rIter_backward (fuel : nat) (r : rIter) (σ : state) : option (list (K * V)) :=
  let '(ok, r') := rIter_End r σ in
  if ok then rIter_back fuel r' σ else Some [].

End smap.

(** ** [sync.RWMutex], and the methods with their calls on [mu]

    The lock of an [sMap] as callers see it: how many hold it for
    reading, whether one holds it for writing, and how many callers of
    [Lock] wait.  A call of a method is taken as one step.  It returns,
    or it blocks at its first call on the lock, or the runtime stops the
    program (an unlock of a lock that is not held).  A caller of [Lock]
    that has to wait keeps later callers of [RLock] out, as the
    documentation of [sync.RWMutex] says; those who wait are let in in
    the order they came. *)

Record RWMutex : Type := mkRWMutex {
  readers : nat;
  writer : bool;
  waiting : nat
}.

(** [&sync.RWMutex{}] *)
Definition unlocked : RWMutex := mkRWMutex 0 false 0.

Inductive outcome (A : Type) : Type :=
| Returns (a : A)
| Blocks (mu : RWMutex)
| Fatal.

Arguments Returns {A} a.
Arguments Blocks {A} mu.
Arguments Fatal {A}.

Global Instance outcome_ret : MRet outcome := λ A a, Returns a.

Global Instance outcome_bind : MBind outcome := λ A B f c,
  match c with
  | Returns a => f a
  | Blocks mu => Blocks mu
  | Fatal => Fatal
  end.

Definition RLock (mu : RWMutex) : outcome RWMutex :=
  if writer mu || negb (waiting mu =? 0) then Blocks mu
  else Returns (mkRWMutex (S (readers mu)) (writer mu) (waiting mu)).

Definition RUnlock (mu : RWMutex) : outcome RWMutex :=
  match readers mu with
  | 0 => Fatal
  | S n => Returns (mkRWMutex n (writer mu) (waiting mu))
  end.

Definition Lock (mu : RWMutex) : outcome RWMutex :=
  if (readers mu =? 0) && negb (writer mu) && (waiting mu =? 0)
  then Returns (mkRWMutex (readers mu) true (waiting mu))
  else Blocks (mkRWMutex (readers mu) (writer mu) (S (waiting mu))).

(** The first of those who wait in [Lock] is let in. *)
Definition Lock_wake (mu : RWMutex) : outcome RWMutex :=
  if (readers mu =? 0) && negb (writer mu)
  then Returns (mkRWMutex (readers mu) true (pred (waiting mu)))
  else Blocks mu.

Definition Unlock (mu : RWMutex) : outcome RWMutex :=
  if writer mu then Returns (mkRWMutex (readers mu) false (waiting mu))
  else Fatal.

Section smap_mu.
Context {K : Type} `{Countable K} {V : Type}.
Context `{!Zero K, !Zero V, !RangeOrder K V}.

(** Each method takes the lock [mu] of its receiver as it finds it and
    gives it back as it leaves it; between the calls on the lock it does
    what the method without them does. *)

Definition Len_mu (s : sMap) (mu : RWMutex) (σ : state (K := K) (V := V)) : outcome (nat * RWMutex) :=
  mu1 ← RLock mu;
  let n := Len s σ in
  mu2 ← RUnlock mu1;
  mret (n, mu2).

Definition Merge_mu (s : sMap) (src : option loc) (overwrite : bool)
    (mu : RWMutex) (σ : state (K := K) (V := V)) : outcome (RWMutex * state) :=
  if bool_decide (len σ src = 0) then mret (mu, σ)
  else
    mu1 ← Lock mu;
    let σ1 := Merge s src overwrite σ in
    mu2 ← Unlock mu1;
    mret (mu2, σ1).

(** The new map comes with a lock of its own. *)
Definition New_mu (init : option loc) (σ : state (K := K) (V := V)) : outcome (sMap * RWMutex * state) :=
  let '(l, σ1) := make_map σ in
  let r := mk_sMap l in
  '(mu_r, σ2) ← Merge_mu r init true unlocked σ1;
  mret (r, mu_r, σ2).

Definition Clone_mu (s : sMap) (mu : RWMutex) (σ : state (K := K) (V := V))
    : outcome (sMap * RWMutex * RWMutex * state) :=
  mu1 ← RLock mu;
  '(r, mu_r, σ1) ← New_mu (Some (m s)) σ;
  mu2 ← RUnlock mu1;
  mret (r, mu_r, mu2, σ1).

Definition Get_mu (s : sMap) (k : K) (mu : RWMutex) (σ : state (K := K) (V := V))
    : outcome (V * bool * RWMutex) :=
  mu1 ← RLock mu;
  let r := Get s k σ in
  mu2 ← RUnlock mu1;
  mret (r, mu2).

Definition Set_mu (s : sMap) (k : K) (v : V) (mu : RWMutex) (σ : state (K := K) (V := V))
    : outcome (RWMutex * state) :=
  mu1 ← Lock mu;
  let σ1 := Set_ s k v σ in
  mu2 ← Unlock mu1;
  mret (mu2, σ1).

Definition CAS_mu (s : sMap) (k : K) (v : V) (mu : RWMutex) (σ : state (K := K) (V := V))
    : outcome (bool * RWMutex * state) :=
  mu1 ← Lock mu;
  let '(ok, σ1) := CAS s k v σ in
  mu2 ← Unlock mu1;
  mret (ok, mu2, σ1).

Definition Raw_mu (s : sMap) (mu : RWMutex) (σ : state (K := K) (V := V))
    : outcome (option loc * RWMutex * state) :=
  mu1 ← RLock mu;
  let '(ret, σ1) := Raw s σ in
  mu2 ← RUnlock mu1;
  mret (ret, mu2, σ1).

Definition Delete_mu (s : sMap) (keys : list K) (mu : RWMutex) (σ : state (K := K) (V := V))
    : outcome (RWMutex * state) :=
  mu1 ← Lock mu;
  let σ1 := Delete s keys σ in
  mu2 ← Unlock mu1;
  mret (mu2, σ1).

Definition Keys_mu (s : sMap) (mu : RWMutex) (σ : state (K := K) (V := V))
    : outcome (list K * RWMutex * state) :=
  mu1 ← RLock mu;
  let '(ks, σ1) := Keys s σ in
  mu2 ← RUnlock mu1;
  mret (ks, mu2, σ1).

Definition Filter_mu (cb : K → V → bool) (s : sMap) (mu : RWMutex) (σ : state (K := K) (V := V))
    : outcome (option loc * RWMutex * state) :=
  mu1 ← RLock mu;
  let '(ret, σ1) := Filter cb s σ in
  mu2 ← RUnlock mu1;
  mret (ret, mu2, σ1).

(** [iter.l] is [s.mu.RLocker()]: its [Lock] and [Unlock] are [RLock]
    and [RUnlock] of [mu].  [Iter] leaves without the matching unlock. *)
Definition Iter_mu (f : option (K → K → bool)) (s : sMap) (mu : RWMutex) (σ : state (K := K) (V := V))
    : outcome (sMapIter (K := K) (V := V) * RWMutex * state (K := K) (V := V)) :=
  mu1 ← RLock mu;
  '(keys, mu2, σ1) ← Keys_mu s mu1 σ;
  mret (mk_sMapIter 0 (Some (sort_keys f keys)) zero zero (Some s), mu2, σ1).

Definition RIter_mu (f : option (K → K → bool)) (s : sMap) (mu : RWMutex) (σ : state (K := K) (V := V))
    : outcome (rIter (K := K) (V := V) * RWMutex * state (K := K) (V := V)) :=
  '(cpy, mu1, σ1) ← Raw_mu s mu σ;
  let '(es, σ2) := range_map σ1 cpy in
  let keys := foldl (λ ks '(k, _), ks ++ [k]) [] es in
  mret (mk_rIter 0 (Some (sort_keys f keys)) zero zero cpy, mu1, σ2).

Definition sMapIter_Close_mu (it : sMapIter (K := K) (V := V)) (mu : RWMutex)
    : outcome (sMapIter (K := K) (V := V) * RWMutex) :=
  let it' := sMapIter_Close it in
  mu1 ← RUnlock mu;
  mret (it', mu1).

(** The calls of write mode, through [mutation]. *)
Definition mutate_mu (s : sMap) (c : mutation (K := K) (V := V)) (mu : RWMutex) (σ : state (K := K) (V := V))
    : outcome (RWMutex * state) :=
  match c with
  | MSet k v => Set_mu s k v mu σ
  | MCAS k v => '(_, mu1, σ1) ← CAS_mu s k v mu σ; mret (mu1, σ1)
  | MDelete keys => Delete_mu s keys mu σ
  | MMerge src overwrite => Merge_mu s src overwrite mu σ
  end.

(** The calls of read mode, their results left aside. *)
Inductive query : Type :=
| QGet (k : K)
| QLen
| QKeys
| QRaw
| QFilter (cb : K → V → bool)
| QClone
| QRIter (f : option (K → K → bool)).

Definition query_mu (s : sMap) (q : query) (mu : RWMutex) (σ : state (K := K) (V := V))
    : outcome (RWMutex * state) :=
  match q with
  | QGet k => '(_, mu1) ← Get_mu s k mu σ; mret (mu1, σ)
  | QLen => '(_, mu1) ← Len_mu s mu σ; mret (mu1, σ)
  | QKeys => '(_, mu1, σ1) ← Keys_mu s mu σ; mret (mu1, σ1)
  | QRaw => '(_, mu1, σ1) ← Raw_mu s mu σ; mret (mu1, σ1)
  | QFilter cb => '(_, mu1, σ1) ← Filter_mu cb s mu σ; mret (mu1, σ1)
  | QClone => '(_, _, mu1, σ1) ← Clone_mu s mu σ; mret (mu1, σ1)
  | QRIter f => '(_, mu1, σ1) ← RIter_mu f s mu σ; mret (mu1, σ1)
  end.

(** *** Callers of one map, one call after the other

    The lock, the store, the number of iterators made by [Iter] and not
    closed, and the calls of write mode that wait in [Lock]. *)
Record world : Type := mkWorld {
  w_mu : RWMutex;
  w_st : state (K := K) (V := V);
  w_open : nat;
  w_pending : list (mutation (K := K) (V := V))
}.

Inductive call : Type :=
| CQuery (q : query)
| CMutate (c : mutation (K := K) (V := V))
| CIter (f : option (K → K → bool))
| CClose (it : sMapIter (K := K) (V := V))
| CWake.

(** One call on the map [s].  A call that blocks leaves the store alone;
    a call of write mode that blocks joins those who wait.  [CClose] is
    [Close] of an iterator of [s]: iterators are closed once, so it
    counts only while one is open.  [CWake] lets the first of those who
    wait run its method. *)
Definition step (s : sMap) (w : world) (c : call) : world :=
  match c with
  | CQuery q =>
      match query_mu s q (w_mu w) (w_st w) with
      | Returns (mu, σ) => mkWorld mu σ (w_open w) (w_pending w)
      | _ => w
      end
  | CMutate c =>
      match mutate_mu s c (w_mu w) (w_st w) with
      | Returns (mu, σ) => mkWorld mu σ (w_open w) (w_pending w)
      | Blocks mu => mkWorld mu (w_st w) (w_open w) (w_pending w ++ [c])
      | Fatal => w
      end
  | CIter f =>
      match Iter_mu f s (w_mu w) (w_st w) with
      | Returns (_, mu, σ) => mkWorld mu σ (S (w_open w)) (w_pending w)
      | _ => w
      end
  | CClose it =>
      match w_open w with
      | 0 => w
      | S n =>
          match sMapIter_Close_mu it (w_mu w) with
          | Returns (_, mu) => mkWorld mu (w_st w) n (w_pending w)
          | _ => w
          end
      end
  | CWake =>
      match w_pending w with
      | [] => w
      | c :: rest =>
          match mu1 ← Lock_wake (w_mu w); Unlock mu1 with
          | Returns mu => mkWorld mu (mutate s c (w_st w)) (w_open w) rest
          | _ => w
          end
      end
  end.

Definition run (s : sMap) (cs : list call) (w : world) : world :=
  foldl (step s) w cs.

(** A map right after [New]: nobody holds its lock. *)
Definition born (σ : state (K := K) (V := V)) : world := mkWorld unlocked σ 0 [].

End smap_mu.

(** ** The maps of the tests: [int] keys, maps ranged in their own order *)
Module Trial.
Section build.
Context {V : Type} `{!Zero V}.

(** The address of the map literal [init] of a test. *)
Definition init : loc := 1%positive.

(** The store that holds the literal and nothing else. *)
Definition literal (es : list (Z * V)) : state (K := Z) (V := V) :=
  mkState {[init := list_to_map es]} 0.

(** [sm := smap.New(init)] *)
Definition build (es : list (Z * V)) : sMap * state :=
  New (Some init) (literal es).
End build.

(** [uint(k)] on a 64-bit platform. *)
Definition uint (k : Z) : N := Z.to_N (k mod 2 ^ 64).

(** The callback of [testFilterKV]: [v%uint(k) == 0]. *)
Definition divides (k : Z) (v : N) : bool := (v mod uint k =? 0)%N.

(** The comparator of [TestIterWithSort]: [a < b]. *)
Definition ascending (a b : Z) : bool := (a <? b)%Z.

(** The map of [TestIterWithSort], with the numbers for their names. *)
Definition sorted_test : sMap * state (K := Z) (V := Z) :=
  build [(21, 21); (1, 1); (3, 3); (2, 2); (15, 15); (11, 11)]%Z.

(** The map of [testFilterKV]. *)
Definition filter_test : sMap * state (K := Z) (V := N) :=
  build [(1%Z, 1%N); (3%Z, 2%N); (5%Z, 10%N); (8%Z, 64%N); (9%Z, 24%N)].

(** The map of [TestAddRemove] before its two calls of [Merge], with
    numbers for the names: all keys deleted, then [Set] of 4 and of 1. *)
Definition merge_test : sMap * state (K := Z) (V := Z) :=
  let '(s, σ) := build [(1, 1); (2, 2); (3, 3)]%Z in
  (s, Set_ s 1%Z 5%Z (Set_ s 4%Z 4%Z (Delete s [1; 2; 3]%Z σ))).
End Trial.

(** ** The sort *)
Section sort_facts.
Context {K : Type} (f : K → K → bool).

Lemma insertLeft_perm x p : insertLeft f x p ≡ₚ x :: p.
Proof.
  induction p as [|y p IH]; simpl; [done|].
  destruct (f x y); [|done].
  rewrite IH. apply Permutation_swap.
Qed.

Lemma insertion_perm keys p :
  foldl (λ prefix x, insertLeft f x prefix) p keys ≡ₚ keys ++ p.
Proof.
  revert p. induction keys as [|x keys IH]; intros p; simpl; [done|].
  rewrite IH, insertLeft_perm. by rewrite Permutation_middle.
Qed.

Lemma SliceStable_perm keys : SliceStable f keys ≡ₚ keys.
Proof.
  unfold SliceStable. rewrite reverse_Permutation, insertion_perm.
  by rewrite app_nil_r.
Qed.

Lemma SliceStable_length keys : length (SliceStable f keys) = length keys.
Proof. by rewrite SliceStable_perm. Qed.

Lemma filter_reverse (g : K → bool) l :
  List.filter g (reverse l) = reverse (List.filter g l).
Proof.
  induction l as [|x l IH]; [done|].
  rewrite reverse_cons, List.filter_app, IH. simpl.
  destruct (g x); simpl; [by rewrite reverse_cons | by rewrite app_nil_r].
Qed.

Section swo.
Hypothesis Hf : StrictWeakOrder f.

Lemma swo_asym a b : f a b = true → f b a = false.
Proof.
  intros Hab. destruct (f b a) eqn:Hba; [|done].
  pose proof (swo_trans f Hf _ _ _ Hab Hba) as Haa.
  by rewrite (swo_irrefl f Hf) in Haa.
Qed.

Lemma equiv_keys_sym a b : equiv_keys f a b = equiv_keys f b a.
Proof. unfold equiv_keys. apply andb_comm. Qed.

Lemma equiv_keys_not_less a b : equiv_keys f a b = true → f a b = false.
Proof. unfold equiv_keys. by destruct (f a b). Qed.

(** Not less is transitive. *)
Lemma swo_not_less_trans a b c :
  f a b = false → f b c = false → f a c = false.
Proof.
  intros Hab Hbc. destruct (f a c) eqn:Hac; [|done]. exfalso.
  destruct (f b a) eqn:Hba.
  { pose proof (swo_trans f Hf _ _ _ Hba Hac). congruence. }
  destruct (f c b) eqn:Hcb.
  { pose proof (swo_trans f Hf _ _ _ Hac Hcb). congruence. }
  assert (equiv_keys f a c = true) as Hc.
  { apply (swo_equiv_trans f Hf a b c); unfold equiv_keys.
    - by rewrite Hab, Hba.
    - by rewrite Hbc, Hcb. }
  apply equiv_keys_not_less in Hc. congruence.
Qed.

(** The prefix, last element first: no element is less than a later one. *)
Lemma insertLeft_sorted x p :
  StronglySorted (λ a b, f a b = false) p →
  StronglySorted (λ a b, f a b = false) (insertLeft f x p).
Proof.
  induction 1 as [|y p Hp IH Hy]; simpl.
  { repeat constructor. }
  destruct (f x y) eqn:Hxy.
  - constructor; [done|].
    rewrite insertLeft_perm. constructor; [by apply swo_asym | done].
  - constructor; [by constructor|].
    constructor; [done|].
    eapply Forall_impl; [exact Hy|]. simpl. intros z Hyz.
    by apply (swo_not_less_trans x y z).
Qed.

Lemma insertion_sorted keys p :
  StronglySorted (λ a b, f a b = false) p →
  StronglySorted (λ a b, f a b = false)
    (foldl (λ prefix x, insertLeft f x prefix) p keys).
Proof.
  revert p. induction keys as [|x keys IH]; intros p Hp; simpl; [done|].
  by apply IH, insertLeft_sorted.
Qed.

Lemma StronglySorted_reverse (R : relation K) l :
  StronglySorted R l → StronglySorted (flip R) (reverse l).
Proof.
  induction 1 as [|x l Hl IH Hx]; [constructor|].
  rewrite reverse_cons. apply StronglySorted_app_2.
  - intros a b Ha Hb. apply list_elem_of_singleton in Hb as ->.
    rewrite elem_of_reverse in Ha. rewrite Forall_forall in Hx.
    unfold flip. by apply Hx.
  - done.
  - repeat constructor.
Qed.

(** In the result no element is less than an earlier one. *)
Lemma SliceStable_sorted keys :
  StronglySorted (λ a b, f b a = false) (SliceStable f keys).
Proof.
  unfold SliceStable.
  apply (StronglySorted_reverse (λ a b, f a b = false)).
  apply insertion_sorted. constructor.
Qed.

Lemma insertLeft_filter a x p :
  List.filter (equiv_keys f a) (insertLeft f x p)
  = List.filter (equiv_keys f a) [x] ++ List.filter (equiv_keys f a) p.
Proof.
  induction p as [|y p IH]; [by rewrite app_nil_r|].
  cbn [insertLeft]. destruct (f x y) eqn:Hxy.
  2: { cbn [List.filter]. by destruct (equiv_keys f a x). }
  cbn [List.filter]. rewrite IH. cbn [List.filter].
  destruct (equiv_keys f a x) eqn:Hax, (equiv_keys f a y) eqn:Hay; try done.
  exfalso. rewrite equiv_keys_sym in Hax.
  pose proof (swo_equiv_trans f Hf _ _ _ Hax Hay) as Hc.
  apply equiv_keys_not_less in Hc. congruence.
Qed.

(** Keys that compare equal keep their order. *)
Lemma SliceStable_stable a keys :
  List.filter (equiv_keys f a) (SliceStable f keys)
  = List.filter (equiv_keys f a) keys.
Proof.
  unfold SliceStable. rewrite filter_reverse.
  induction keys as [|x keys IH] using rev_ind; [done|].
  rewrite foldl_app. cbn [foldl].
  rewrite insertLeft_filter, reverse_app, IH, List.filter_app.
  f_equal. cbn [List.filter]. by destruct (equiv_keys f a x).
Qed.

Lemma equiv_keys_refl a : equiv_keys f a a = true.
Proof. unfold equiv_keys. by rewrite (swo_irrefl f Hf). Qed.

(** Every stable sort returns the same sequence: a sorted sequence is
    fixed by the order it gives to the keys that compare equal. *)
Lemma stable_sort_unique l1 l2 :
  StronglySorted (λ a b, f b a = false) l1 →
  StronglySorted (λ a b, f b a = false) l2 →
  (∀ a, List.filter (equiv_keys f a) l1 = List.filter (equiv_keys f a) l2) →
  l1 = l2.
Proof.
  intros Hs1. revert l2.
  induction Hs1 as [|x l1 Hs1 IH Hx]; intros l2 Hs2 Hfilter.
  { destruct l2 as [|y l2]; [done|]. specialize (Hfilter y).
    cbn [List.filter] in Hfilter. by rewrite equiv_keys_refl in Hfilter. }
  destruct Hs2 as [|y l2 Hs2 Hy].
  { specialize (Hfilter x). cbn [List.filter] in Hfilter.
    by rewrite equiv_keys_refl in Hfilter. }
  rewrite Forall_forall in Hx. rewrite Forall_forall in Hy.
  assert (equiv_keys f x y = true) as Hxy.
  { unfold equiv_keys. apply andb_true_iff. split; apply negb_true_iff.
    - pose proof (Hfilter x) as Hfx. cbn [List.filter] in Hfx.
      rewrite equiv_keys_refl in Hfx.
      assert (x ∈ y :: l2) as Hin.
      { apply list_elem_of_In, (List.filter_In (equiv_keys f x)).
        cbn [List.filter]. rewrite <- Hfx. by left. }
      apply elem_of_cons in Hin as [->|Hin]; [by apply (swo_irrefl f Hf)|].
      by apply Hy.
    - pose proof (Hfilter y) as Hfy. cbn [List.filter] in Hfy.
      rewrite (equiv_keys_refl y) in Hfy.
      assert (y ∈ x :: l1) as Hin.
      { apply list_elem_of_In, (List.filter_In (equiv_keys f y)).
        cbn [List.filter]. rewrite Hfy. by left. }
      apply elem_of_cons in Hin as [->|Hin]; [by apply (swo_irrefl f Hf)|].
      by apply Hx. }
  assert (x = y) as <-.
  { specialize (Hfilter x). cbn [List.filter] in Hfilter.
    rewrite equiv_keys_refl, Hxy in Hfilter. congruence. }
  f_equal. apply IH; [done|]. intros a. specialize (Hfilter a).
  cbn [List.filter] in Hfilter.
  destruct (equiv_keys f a x); congruence.
Qed.

(** So [SliceStable] is what any stable sort of the keys returns. *)
Lemma SliceStable_unique keys out :
  StronglySorted (λ a b, f b a = false) out →
  (∀ a, List.filter (equiv_keys f a) out = List.filter (equiv_keys f a) keys) →
  out = SliceStable f keys.
Proof.
  intros Hs Hst. apply stable_sort_unique; [done|apply SliceStable_sorted|].
  intros a. by rewrite SliceStable_stable.
Qed.
End swo.
End sort_facts.

(** ** The store and the loops over it *)
Section store_facts.
Context {K : Type} `{Countable K} {V : Type}.
Context `{!Zero K, !Zero V, !RangeOrder K V}.
Implicit Types (σ : state (K := K) (V := V)) (l : loc) (s : sMap).
Implicit Types (mp acc : gmap K V) (es : list (K * V)).

Lemma range_NoDup n mp : NoDup (range n mp).*1.
Proof. rewrite range_perm. apply NoDup_fst_map_to_list. Qed.

Lemma list_to_map_range n mp : list_to_map (range n mp) = mp.
Proof.
  rewrite (list_to_map_proper _ (map_to_list mp)).
  - apply list_to_map_to_list.
  - apply range_NoDup.
  - apply range_perm.
Qed.

Lemma range_keys_perm n mp : (range n mp).*1 ≡ₚ elements (dom mp).
Proof.
  apply NoDup_Permutation.
  - apply range_NoDup.
  - apply NoDup_elements.
  - intros k. rewrite elem_of_elements, elem_of_dom, range_perm.
    rewrite list_elem_of_fmap. split.
    + intros [[k' v] [-> Hin]]. apply elem_of_map_to_list in Hin. by exists v.
    + intros [v Hv]. exists (k, v). split; [done|].
      by apply elem_of_map_to_list.
Qed.

Lemma append_keys es (ks : list K) :
  foldl (λ ks '(k, _), ks ++ [k]) ks es = ks ++ es.*1.
Proof.
  revert ks. induction es as [|[k v] es IH]; intros ks; simpl.
  - by rewrite app_nil_r.
  - by rewrite IH, <- app_assoc.
Qed.

Lemma deref_store_eq σ l k v : deref (store σ l k v) l = <[k := v]> (deref σ l).
Proof. unfold deref at 1, store. simpl. by rewrite lookup_insert_eq. Qed.

Lemma heap_store_ne σ l k v l' :
  l' ≠ l → heap (store σ l k v) !! l' = heap σ !! l'.
Proof. intros. unfold store. simpl. by rewrite lookup_insert_ne. Qed.

Lemma deref_delete_key_eq σ l k : deref (delete_key σ l k) l = delete k (deref σ l).
Proof. unfold deref at 1, delete_key. simpl. by rewrite lookup_insert_eq. Qed.

Lemma heap_delete_key_ne σ l k l' :
  l' ≠ l → heap (delete_key σ l k) !! l' = heap σ !! l'.
Proof. intros. unfold delete_key. simpl. by rewrite lookup_insert_ne. Qed.

Lemma deref_ext σ σ' l : heap σ' !! l = heap σ !! l → deref σ' l = deref σ l.
Proof. unfold deref. by intros ->. Qed.

Lemma make_map_fresh σ : heap σ !! (make_map σ).1 = None.
Proof. simpl. apply not_elem_of_dom, is_fresh. Qed.

Lemma make_map_deref σ l : deref (make_map σ).2 l = deref σ l.
Proof.
  unfold deref. simpl. destruct (decide (fresh (dom (heap σ)) = l)) as [<-|Hne].
  - rewrite lookup_insert_eq. pose proof (make_map_fresh σ) as Hf. simpl in Hf.
    by rewrite Hf.
  - by rewrite lookup_insert_ne.
Qed.

(** A loop that stores some of the entries it visits into [l]. *)
Lemma cond_store_loop (body : state → K * V → state) (g : gmap K V → K → V → bool) l :
  (∀ σ k v, body σ (k, v) = if g (deref σ l) k v then store σ l k v else σ) →
  ∀ es σ,
    deref (foldl body σ es) l
    = foldl (λ acc '(k, v), if g acc k v then <[k := v]> acc else acc) (deref σ l) es
    ∧ (∀ l', l' ≠ l → heap (foldl body σ es) !! l' = heap σ !! l')
    ∧ rnd (foldl body σ es) = rnd σ
    ∧ (is_Some (heap σ !! l) → is_Some (heap (foldl body σ es) !! l)).
Proof.
  intros Hbody. induction es as [|[k v] es IH]; intros σ; simpl; [done|].
  destruct (IH (body σ (k, v))) as (Hd & Hfr & Hrnd & Hal).
  split_and!.
  - rewrite Hd, Hbody.
    destruct (g (deref σ l) k v); [by rewrite deref_store_eq | done].
  - intros l' Hne. rewrite Hfr, Hbody by done.
    destruct (g (deref σ l) k v); [by apply heap_store_ne | done].
  - rewrite Hrnd, Hbody. by destruct (g (deref σ l) k v).
  - intros Hl. apply Hal. rewrite Hbody.
    destruct (g (deref σ l) k v); [|done].
    unfold store. simpl. by rewrite lookup_insert_eq.
Qed.

(** What such a loop leaves when the choice looks at the entry only. *)
Lemma cond_insert_lookup (cb : K → V → bool) (g : gmap K V → K → V → bool) es acc k :
  (∀ acc k v, g acc k v = cb k v) →
  NoDup es.*1 →
  foldl (λ acc '(k, v), if g acc k v then <[k := v]> acc else acc) acc es !! k
  = match (list_to_map es : gmap K V) !! k with
    | Some v => if cb k v then Some v else acc !! k
    | None => acc !! k
    end.
Proof.
  intros Hg. revert acc. induction es as [|[k0 v0] es IH]; intros acc Hnd; simpl.
  { by rewrite lookup_empty. }
  apply NoDup_cons in Hnd as [Hk0 Hnd]. rewrite IH by done. rewrite Hg.
  destruct (decide (k0 = k)) as [->|Hne].
  - rewrite lookup_insert_eq.
    rewrite (not_elem_of_list_to_map_1 es k) by done.
    destruct (cb k v0); [by rewrite lookup_insert_eq | done].
  - rewrite lookup_insert_ne by done.
    destruct (cb k0 v0); [by rewrite lookup_insert_ne | done].
Qed.

(** What the loop of [Merge] leaves when it must not overwrite. *)
Lemma keep_insert_union (g : gmap K V → K → V → bool) es acc :
  (∀ acc k v, g acc k v = bool_decide (acc !! k = None)) →
  foldl (λ acc '(k, v), if g acc k v then <[k := v]> acc else acc) acc es
  = acc ∪ list_to_map es.
Proof.
  intros Hg. revert acc. induction es as [|[k0 v0] es IH]; intros acc; simpl.
  { by rewrite (right_id_L ∅ (∪)). }
  rewrite IH, Hg. case_bool_decide as Hk.
  - by rewrite <- insert_union_l, insert_union_r.
  - apply map_eq. intros k. rewrite !lookup_union.
    destruct (decide (k0 = k)) as [->|Hne].
    + rewrite lookup_insert_eq. destruct (acc !! k) eqn:Hacc; [|done].
      by destruct (list_to_map es !! k).
    + by rewrite lookup_insert_ne.
Qed.
End store_facts.

(** ** What each method of [sMap] does to the store *)
Section sMap_facts.
Context {K : Type} `{Countable K} {V : Type}.
Context `{!Zero K, !Zero V, !RangeOrder K V}.
Implicit Types (σ : state (K := K) (V := V)) (l : loc) (s : sMap).
Implicit Types (mp acc : gmap K V) (es : list (K * V)).

Lemma index_lookup σ src k :
  index σ src k
  = match entries σ src !! k with
    | Some v => (v, true)
    | None => (zero, false)
    end.
Proof. destruct src; simpl; [done|]. by rewrite lookup_empty. Qed.

Lemma Get_lookup s k σ :
  Get s k σ = match deref σ (m s) !! k with
              | Some v => (v, true)
              | None => (zero, false)
              end.
Proof. done. Qed.

Lemma Get_ext s k σ σ' : heap σ' !! m s = heap σ !! m s → Get s k σ' = Get s k σ.
Proof. intros Hh. unfold Get, index. by rewrite (deref_ext σ σ'). Qed.

Lemma Len_ext s σ σ' : heap σ' !! m s = heap σ !! m s → Len s σ' = Len s σ.
Proof. intros Hh. unfold Len, len. by rewrite (deref_ext σ σ'). Qed.

Lemma len_zero σ src : len σ src = 0 ↔ entries σ src = ∅.
Proof. destruct src; simpl; [apply map_size_empty_iff | done]. Qed.

Lemma Merge_loop s overwrite es σ :
  let σ' := foldl (λ σ' '(k, v),
                     if negb overwrite && (index σ' (Some (m s)) k).2 then σ'
                     else store σ' (m s) k v) σ es in
  (NoDup es.*1 →
   deref σ' (m s)
   = if overwrite then list_to_map es ∪ deref σ (m s)
     else deref σ (m s) ∪ list_to_map es)
  ∧ (∀ l', l' ≠ m s → heap σ' !! l' = heap σ !! l')
  ∧ (is_Some (heap σ !! m s) → is_Some (heap σ' !! m s)).
Proof.
  intros σ'.
  destruct (cond_store_loop
    (λ σ' '(k, v), if negb overwrite && (index σ' (Some (m s)) k).2 then σ'
                   else store σ' (m s) k v)
    (λ acc k _, overwrite || bool_decide (acc !! k = None)) (m s)) with es σ
    as (Hd & Hfr & _ & Hal).
  { intros σ0 k v. simpl. destruct overwrite; simpl; [done|].
    case_bool_decide as Hk; [by rewrite Hk|].
    by destruct (deref σ0 (m s) !! k). }
  split_and!; [|done..].
  intros Hnd. subst σ'. rewrite Hd. destruct overwrite.
  - apply map_eq. intros k.
    rewrite (cond_insert_lookup (λ _ _, true)), lookup_union by done.
    by destruct (list_to_map es !! k), (deref σ (m s) !! k).
  - by apply keep_insert_union.
Qed.

Lemma Merge_deref s src overwrite σ :
  deref (Merge s src overwrite σ) (m s)
  = if overwrite then entries σ src ∪ deref σ (m s)
    else deref σ (m s) ∪ entries σ src.
Proof.
  unfold Merge. case_bool_decide as Hlen.
  - apply len_zero in Hlen. rewrite Hlen.
    destruct overwrite; [by rewrite (left_id_L ∅ (∪)) | by rewrite (right_id_L ∅ (∪))].
  - destruct src as [l|]; [|done]. unfold range_map, entries.
    destruct (Merge_loop s overwrite (range (rnd σ) (deref σ l))
                (mkState (heap σ) (S (rnd σ)))) as (Hd & _).
    rewrite Hd by apply range_NoDup. by rewrite list_to_map_range.
Qed.

Lemma Merge_frame s src overwrite σ l' :
  l' ≠ m s → heap (Merge s src overwrite σ) !! l' = heap σ !! l'.
Proof.
  intros Hne. unfold Merge. case_bool_decide; [done|]. unfold range_map.
  match goal with |- context [foldl _ ?σ1 ?es] =>
    destruct (Merge_loop s overwrite es σ1) as (_ & Hfr & _) end.
  by rewrite Hfr.
Qed.

Lemma Merge_allocated s src overwrite σ :
  allocated s σ → allocated s (Merge s src overwrite σ).
Proof.
  unfold allocated, Merge. intros Hal. case_bool_decide; [done|].
  unfold range_map.
  match goal with |- context [foldl _ ?σ1 ?es] =>
    destruct (Merge_loop s overwrite es σ1) as (_ & _ & Hal') end.
  by apply Hal'.
Qed.

Lemma Merge_empty s src overwrite σ :
  len σ src = 0 → Merge s src overwrite σ = σ.
Proof. intros Hlen. unfold Merge. by rewrite bool_decide_eq_true_2. Qed.

Lemma New_spec init σ :
  heap σ !! m (New init σ).1 = None
  ∧ allocated (New init σ).1 (New init σ).2
  ∧ deref (New init σ).2 (m (New init σ).1) = entries σ init
  ∧ (∀ l', l' ≠ m (New init σ).1 → heap (New init σ).2 !! l' = heap σ !! l').
Proof.
  unfold New. pose proof (make_map_fresh σ) as Hfresh.
  destruct (make_map σ) as [l σ1] eqn:Hmk. simpl in *.
  assert (heap σ1 = <[l := ∅]> (heap σ)) as Hσ1.
  { unfold make_map in Hmk. by simplify_eq. }
  split_and!.
  - done.
  - apply Merge_allocated. unfold allocated. simpl.
    rewrite Hσ1, lookup_insert_eq. by eexists.
  - rewrite (Merge_deref (mk_sMap l)). simpl.
    assert (deref σ1 l = ∅) as ->.
    { unfold deref. by rewrite Hσ1, lookup_insert_eq. }
    rewrite (right_id_L ∅ (∪)).
    destruct init as [l0|]; [|done]. simpl.
    replace σ1 with (make_map σ).2 by (by rewrite Hmk).
    apply make_map_deref.
  - intros l' Hne. rewrite (Merge_frame (mk_sMap l)) by done.
    by rewrite Hσ1, lookup_insert_ne.
Qed.

(** The loops of [Raw] and [Filter]: a new map object filled from [s]. *)
Lemma copy_loop (cb : K → V → bool) s σ :
  let '(ret, σ1) := make_map σ in
  let '(es, σ2) := range_map σ1 (Some (m s)) in
  let σ' := foldl (λ σ' '(k, v), if cb k v then store σ' ret k v else σ') σ2 es in
  heap σ !! ret = None
  ∧ is_Some (heap σ' !! ret)
  ∧ deref σ' ret = filter (λ kv, cb kv.1 kv.2 = true) (deref σ (m s))
  ∧ (∀ l', l' ≠ ret → heap σ' !! l' = heap σ !! l').
Proof.
  pose proof (make_map_fresh σ) as Hfresh.
  pose proof (make_map_deref σ (m s)) as Hsrc.
  destruct (make_map σ) as [ret σ1] eqn:Hmk. simpl in *.
  assert (heap σ1 = <[ret := ∅]> (heap σ)) as Hσ1.
  { unfold make_map in Hmk. by simplify_eq. }
  set (σ2 := mkState (heap σ1) (S (rnd σ1))).
  set (es := range (rnd σ1) (deref σ1 (m s))).
  destruct (cond_store_loop
    (λ σ' '(k, v), if cb k v then store σ' ret k v else σ')
    (λ _ k v, cb k v) ret) with es σ2 as (Hd & Hfr & _ & Hal); [done|].
  split_and!.
  - done.
  - apply Hal. simpl. rewrite Hσ1, lookup_insert_eq. by eexists.
  - rewrite Hd. apply map_eq. intros k.
    rewrite (cond_insert_lookup cb) by (done || apply range_NoDup).
    unfold es. rewrite list_to_map_range, Hsrc.
    assert (deref σ2 ret = ∅) as ->.
    { unfold deref. simpl. by rewrite Hσ1, lookup_insert_eq. }
    rewrite lookup_empty.
    destruct (deref σ (m s) !! k) as [v|] eqn:Hk.
    + destruct (cb k v) eqn:Hcb.
      * symmetry. by apply map_lookup_filter_Some.
      * symmetry. apply map_lookup_filter_None. right. intros v' Hv'.
        simpl. simplify_eq. by rewrite Hcb.
    + symmetry. apply map_lookup_filter_None. by left.
  - intros l' Hne. rewrite Hfr by done. simpl.
    by rewrite Hσ1, lookup_insert_ne.
Qed.

Lemma Filter_store cb s σ :
  ∃ ret, (Filter cb s σ).1 = Some ret
    ∧ heap σ !! ret = None
    ∧ is_Some (heap (Filter cb s σ).2 !! ret)
    ∧ deref (Filter cb s σ).2 ret = filter (λ kv, cb kv.1 kv.2 = true) (deref σ (m s))
    ∧ (∀ l', l' ≠ ret → heap (Filter cb s σ).2 !! l' = heap σ !! l').
Proof.
  pose proof (copy_loop cb s σ) as Hloop. unfold Filter.
  destruct (make_map σ) as [ret σ1]. destruct (range_map σ1 (Some (m s))) as [es σ2].
  exists ret. by split.
Qed.

Lemma Raw_store s σ :
  ∃ ret, (Raw s σ).1 = Some ret
    ∧ heap σ !! ret = None
    ∧ is_Some (heap (Raw s σ).2 !! ret)
    ∧ deref (Raw s σ).2 ret = deref σ (m s)
    ∧ (∀ l', l' ≠ ret → heap (Raw s σ).2 !! l' = heap σ !! l').
Proof.
  pose proof (copy_loop (λ _ _, true) s σ) as Hloop. unfold Raw.
  destruct (make_map σ) as [ret σ1]. destruct (range_map σ1 (Some (m s))) as [es σ2].
  destruct Hloop as (Hnew & Hal & Hd & Hfr).
  exists ret. split_and!; [done..| |done].
  simpl. etrans; [exact Hd|].
  apply map_eq. intros k. destruct (deref σ (m s) !! k) as [v|] eqn:Hk.
  - by apply map_lookup_filter_Some.
  - apply map_lookup_filter_None. by left.
Qed.

Lemma Keys_store s σ :
  (Keys s σ).1 = (range (rnd σ) (deref σ (m s))).*1
  ∧ heap (Keys s σ).2 = heap σ.
Proof. unfold Keys. simpl. by rewrite append_keys. Qed.

Lemma Delete_store s keys σ :
  deref (Delete s keys σ) (m s) = foldl (λ mp k, delete k mp) (deref σ (m s)) keys
  ∧ (∀ l', l' ≠ m s → heap (Delete s keys σ) !! l' = heap σ !! l').
Proof.
  unfold Delete. revert σ. induction keys as [|k keys IH]; intros σ; simpl; [done|].
  destruct (IH (delete_key σ (m s) k)) as [Hd Hfr]. split.
  - by rewrite Hd, deref_delete_key_eq.
  - intros l' Hne. rewrite Hfr by done. by apply heap_delete_key_ne.
Qed.

(** A write through [s] changes no map object but that of [s]. *)
Lemma mutate_frame s c σ l' :
  l' ≠ m s → heap (mutate s c σ) !! l' = heap σ !! l'.
Proof.
  intros Hne. destruct c as [k v|k v|keys|src overwrite]; simpl.
  - by apply heap_store_ne.
  - unfold CAS. destruct (index σ (Some (m s)) k).2; simpl; [done|].
    by apply heap_store_ne.
  - by apply Delete_store.
  - by apply Merge_frame.
Qed.

Lemma mutate_all_frame s cs σ l' :
  l' ≠ m s → heap (mutate_all s cs σ) !! l' = heap σ !! l'.
Proof.
  intros Hne. unfold mutate_all. revert σ.
  induction cs as [|c cs IH]; intros σ; simpl; [done|].
  by rewrite IH, mutate_frame.
Qed.
End sMap_facts.

(** ** The map: [CAS], [Merge], [Clone], [Filter] *)
Section sMap_claims.
Context {K : Type} `{Countable K} {V : Type}.
Context `{!Zero K, !Zero V, !RangeOrder K V}.
Implicit Types (σ : state (K := K) (V := V)) (l : loc) (s : sMap).

Lemma Get_deref_ext s k σ σ' :
  deref σ' (m s) = deref σ (m s) → Get s k σ' = Get s k σ.
Proof. intros Hd. by rewrite !Get_lookup, Hd. Qed.

Lemma Len_deref_ext s σ σ' :
  deref σ' (m s) = deref σ (m s) → Len s σ' = Len s σ.
Proof. intros Hd. unfold Len, len. by rewrite Hd. Qed.

(** C3. [CAS(k, v)] on a key that is present returns false and leaves
    the whole store as it was, so the value at [k] and every other entry
    are unchanged; on a key that is absent it returns true, and [Get(k)]
    then returns [(v, true)]. *)
Theorem CAS_check_and_set s k v σ :
  ((Get s k σ).2 = true → CAS s k v σ = (false, σ))
  ∧ ((Get s k σ).2 = false →
     (CAS s k v σ).1 = true ∧ Get s k (CAS s k v σ).2 = (v, true)).
Proof.
  unfold CAS, Get. split; intros Hk; rewrite Hk; [done|].
  split; [done|]. simpl. by rewrite deref_store_eq, lookup_insert_eq.
Qed.

(** C4. [Merge(src, false)] leaves the value of every key the
    destination already had and gives each other key what [src] has for
    it; [Merge(src, true)] gives every key of [src] the value [src] has
    for it and leaves the other keys alone; merging a nil or empty [src]
    changes nothing at all. *)
Theorem Merge_overwrite_or_keep s src σ :
  (∀ k, (Get s k σ).2 = true → Get s k (Merge s src false σ) = Get s k σ)
  ∧ (∀ k, (Get s k σ).2 = false → Get s k (Merge s src false σ) = index σ src k)
  ∧ (∀ k, (index σ src k).2 = true → Get s k (Merge s src true σ) = index σ src k)
  ∧ (∀ k, (index σ src k).2 = false → Get s k (Merge s src true σ) = Get s k σ)
  ∧ (∀ overwrite, len σ src = 0 → Merge s src overwrite σ = σ).
Proof.
  split_and!.
  - intros k. rewrite !Get_lookup, Merge_deref, lookup_union.
    by destruct (deref σ (m s) !! k), (entries σ src !! k).
  - intros k. rewrite !Get_lookup, index_lookup, Merge_deref, lookup_union.
    by destruct (deref σ (m s) !! k), (entries σ src !! k).
  - intros k. rewrite !Get_lookup, index_lookup, Merge_deref, lookup_union.
    by destruct (deref σ (m s) !! k), (entries σ src !! k).
  - intros k. rewrite !Get_lookup, index_lookup, Merge_deref, lookup_union.
    by destruct (deref σ (m s) !! k), (entries σ src !! k).
  - intros overwrite. apply Merge_empty.
Qed.

(** C5. [Clone] returns a map with the entries of its source, held in a
    map object of its own; from then on, in whatever state the store is,
    no sequence of writes ([Set], [Delete], and also [CAS] and [Merge])
    through one of the two changes what [Get] and [Len] return for the
    other. *)
Theorem Clone_independent s σ :
  allocated s σ →
  let c := (Clone s σ).1 in
  let σ1 := (Clone s σ).2 in
  (∀ k, Get c k σ1 = Get s k σ) ∧ Len c σ1 = Len s σ
  ∧ (∀ k, Get s k σ1 = Get s k σ) ∧ Len s σ1 = Len s σ
  ∧ m c ≠ m s ∧ allocated c σ1 ∧ allocated s σ1
  ∧ ∀ σ' cs,
      (∀ k, Get c k (mutate_all s cs σ') = Get c k σ')
      ∧ Len c (mutate_all s cs σ') = Len c σ'
      ∧ (∀ k, Get s k (mutate_all c cs σ') = Get s k σ')
      ∧ Len s (mutate_all c cs σ') = Len s σ'.
Proof.
  intros Hal c σ1. subst c σ1. unfold Clone.
  destruct (New_spec (Some (m s)) σ) as (Hnew & Halc & Hd & Hfr).
  assert (m (New (Some (m s)) σ).1 ≠ m s) as Hne.
  { intros Heq. rewrite Heq in Hnew. destruct Hal as [? Hal]. congruence. }
  split_and!.
  - intros k. by rewrite !Get_lookup, Hd.
  - unfold Len, len. by rewrite Hd.
  - intros k. apply Get_ext, Hfr. done.
  - apply Len_ext, Hfr. done.
  - done.
  - done.
  - unfold allocated. by rewrite Hfr.
  - intros σ' cs. split_and!.
    + intros k. by apply Get_ext, mutate_all_frame.
    + by apply Len_ext, mutate_all_frame.
    + intros k. by apply Get_ext, mutate_all_frame.
    + by apply Len_ext, mutate_all_frame.
Qed.

Lemma Filter_general cb s σ :
  ∃ ret, (Filter cb s σ).1 = Some ret
    ∧ heap σ !! ret = None
    ∧ (∀ k v, deref (Filter cb s σ).2 ret !! k = Some v
              ↔ deref σ (m s) !! k = Some v ∧ cb k v = true)
    ∧ (∀ l', l' ≠ ret → heap (Filter cb s σ).2 !! l' = heap σ !! l')
    ∧ (∀ k, Get s k (Filter cb s σ).2 = Get s k σ)
    ∧ Len s (Filter cb s σ).2 = Len s σ.
Proof.
  destruct (Filter_store cb s σ) as (ret & Hret & Hnew & Hal & Hd & Hfr).
  assert (deref (Filter cb s σ).2 (m s) = deref σ (m s)) as Hsrc.
  { destruct (decide (m s = ret)) as [Heq|Hne]; [|by apply deref_ext, Hfr].
    assert (deref σ (m s) = ∅) as Hempty.
    { unfold deref. by rewrite Heq, Hnew. }
    rewrite Hempty, Heq, Hd, Hempty. apply map_filter_empty. }
  exists ret. split_and!; [done..| | | |].
  - intros k v. rewrite Hd. apply map_lookup_filter_Some.
  - done.
  - intros k. by apply Get_deref_ext.
  - by apply Len_deref_ext.
Qed.
End sMap_claims.

(** ** The iterators *)
Section iterator_claims.
Context {K : Type} `{Countable K} {V : Type}.
Context `{!Zero K, !Zero V, !RangeOrder K V}.
Implicit Types (σ : state (K := K) (V := V)) (l : loc) (s : sMap).
Implicit Types (it : sMapIter (K := K) (V := V)) (r : rIter (K := K) (V := V)).
Implicit Types (ks : list K).

Lemma Iter_store f s σ :
  Iter f s σ
  = (mk_sMapIter 0 (Some (sort_keys f (Keys s σ).1)) zero zero (Some s), (Keys s σ).2).
Proof. unfold Iter. by destruct (Keys s σ). Qed.

Lemma RIter_store f s σ :
  ∃ c ks,
    (RIter f s σ).1 = mk_rIter 0 (Some (sort_keys f ks)) zero zero (Some c)
    ∧ (∃ n, ks = (range n (deref σ (m s))).*1)
    ∧ heap σ !! c = None
    ∧ deref (RIter f s σ).2 c = deref σ (m s)
    ∧ (∀ l', l' ≠ c → heap (RIter f s σ).2 !! l' = heap σ !! l').
Proof.
  destruct (Raw_store s σ) as (c & Hret & Hnew & _ & Hd & Hfr).
  unfold RIter. destruct (Raw s σ) as [cpy σ1]. simpl in *. subst cpy.
  exists c, (range (rnd σ1) (deref σ1 c)).*1. split_and!.
  - by rewrite append_keys.
  - exists (rnd σ1). by rewrite Hd.
  - done.
  - done.
  - done.
Qed.

(** The calls on an iterator keep its slice of keys, [Close] apart. *)
Lemma sMapIter_Next_keys it σ : it_keys (sMapIter_Next it σ).2 = it_keys it.
Proof. unfold sMapIter_Next. by case_bool_decide. Qed.

Lemma sMapIter_Nexts_keys n it σ : it_keys (sMapIter_Nexts n it σ) = it_keys it.
Proof.
  induction n as [|n IH]; [done|].
  unfold sMapIter_Nexts in *. simpl. by rewrite sMapIter_Next_keys.
Qed.

Lemma rIter_call_keys c r σ : r_keys (rIter_call c r σ).2 = r_keys r.
Proof.
  destruct c; simpl.
  - unfold rIter_Next. by case_bool_decide.
  - unfold rIter_Prev. by case_bool_decide.
  - unfold rIter_Rewind. by case_bool_decide.
  - unfold rIter_End, rIter_Prev. by case_bool_decide.
Qed.

Lemma rIter_calls_keys cs r σ : r_keys (rIter_calls cs r σ) = r_keys r.
Proof.
  unfold rIter_calls. revert r.
  induction cs as [|c cs IH]; intros r; simpl; [done|].
  by rewrite IH, rIter_call_keys.
Qed.

(** A closed iterator stays as it is under every call. *)
Lemma sMapIter_Nexts_closed n it σ :
  sMapIter_Nexts n (sMapIter_Close it) σ = sMapIter_Close it.
Proof.
  induction n as [|n IH]; [done|].
  unfold sMapIter_Nexts in *. simpl. by rewrite IH.
Qed.

Lemma rIter_call_closed c r σ :
  rIter_call c (rIter_Close r) σ = (false, rIter_Close r).
Proof. by destruct c. Qed.

Lemma rIter_calls_closed cs r σ :
  rIter_calls cs (rIter_Close r) σ = rIter_Close r.
Proof.
  unfold rIter_calls. induction cs as [|c cs IH]; simpl; [done|].
  by rewrite rIter_call_closed.
Qed.

(** C2. Once [Close] has run, on either kind of iterator, [Next] returns
    false, as do [Prev], [Rewind] and [End] on the iterator over a copy,
    and [Key] and [Val] return an error; no call changes the closed
    iterator, so this stays true after any number of further calls. *)
Theorem closed_iterator_refuses it r σ :
  (sMapIter_Next (sMapIter_Close it) σ = (false, sMapIter_Close it)
   ∧ sMapIter_Key (sMapIter_Close it) = (zero, Some (errors_New "iterator closed"))
   ∧ sMapIter_Val (sMapIter_Close it) = (zero, Some (errors_New "iterator closed"))
   ∧ ∀ n, sMapIter_Nexts n (sMapIter_Close it) σ = sMapIter_Close it)
  ∧ (rIter_Next (rIter_Close r) σ = (false, rIter_Close r)
     ∧ rIter_Prev (rIter_Close r) σ = (false, rIter_Close r)
     ∧ rIter_Rewind (rIter_Close r) = (false, rIter_Close r)
     ∧ rIter_End (rIter_Close r) σ = (false, rIter_Close r)
     ∧ rIter_Key (rIter_Close r) = (zero, Some (errors_New "iterator closed"))
     ∧ rIter_Val (rIter_Close r) = (zero, Some (errors_New "iterator closed"))
     ∧ ∀ cs, rIter_calls cs (rIter_Close r) σ = rIter_Close r).
Proof.
  split; split_and!; try done.
  - intros n. apply sMapIter_Nexts_closed.
  - intros cs. apply rIter_calls_closed.
Qed.

(** [n] calls of [Next] from the start of an iterator over a copy. *)
Lemma rIter_Nexts_S n r σ :
  rIter_Nexts (S n) r σ = (rIter_Next (rIter_Nexts n r σ) σ).2.
Proof. done. Qed.

Lemma rIter_Nexts_advance n r σ :
  r_i r + n ≤ slice_len (r_keys r) →
  r_i (rIter_Nexts n r σ) = r_i r + n
  ∧ r_keys (rIter_Nexts n r σ) = r_keys r
  ∧ r_m (rIter_Nexts n r σ) = r_m r
  ∧ (1 ≤ n →
     r_k (rIter_Nexts n r σ) = slice_index (r_keys r) (r_i r + n - 1)
     ∧ r_v (rIter_Nexts n r σ)
       = (index σ (r_m r) (slice_index (r_keys r) (r_i r + n - 1))).1).
Proof.
  induction n as [|n IH]; intros Hn.
  { split_and!; [simpl; lia|done..|lia]. }
  destruct IH as (IHi & IHk & IHm & _); [lia|].
  rewrite rIter_Nexts_S. unfold rIter_Next.
  rewrite bool_decide_eq_false_2 by (rewrite IHi, IHk; lia).
  simpl. rewrite IHi, IHk, IHm.
  replace (r_i r + S n - 1) with (r_i r + n) by lia.
  split_and!; [lia|done..].
Qed.

(** The keys of a new iterator over a copy are those of a map, each once. *)
Lemma RIter_keys_NoDup f s σ :
  r_i (RIter f s σ).1 = 0
  ∧ ∃ ks, r_keys (RIter f s σ).1 = Some ks ∧ NoDup ks
      ∧ length ks = size (deref σ (m s)).
Proof.
  destruct (RIter_store f s σ) as (c & ks & Hr & [n Hks] & _).
  rewrite Hr. simpl. split; [done|]. eexists. split; [done|].
  assert (sort_keys f ks ≡ₚ ks) as Hperm.
  { destruct f; [apply SliceStable_perm | done]. }
  rewrite Hperm, Hks. split; [apply range_NoDup|].
  by rewrite length_fmap, range_perm, length_map_to_list.
Qed.

(** C10. On an open iterator over a copy, [n] calls of [Next] that stay
    within the keys all succeed and move the index [n] places on, one past
    the key they report; for [n >= 1] a call of [Prev] right after returns
    true and reports that same key and its value again, not the key before
    it, and leaves the index one back; [Prev] returns false exactly when
    the index is 0, which from the start of the iterator means that no
    [Next] has succeeded. *)
Theorem Prev_after_Next n r σ :
  r_i r + n ≤ slice_len (r_keys r) →
  let rn := rIter_Nexts n r σ in
  (∀ j, j < n → (rIter_Next (rIter_Nexts j r σ) σ).1 = true)
  ∧ r_i rn = r_i r + n
  ∧ (1 ≤ n →
     rIter_Key rn = (slice_index (r_keys r) (r_i r + n - 1), None)
     ∧ (rIter_Prev rn σ).1 = true
     ∧ rIter_Key (rIter_Prev rn σ).2 = rIter_Key rn
     ∧ rIter_Val (rIter_Prev rn σ).2 = rIter_Val rn
     ∧ r_i (rIter_Prev rn σ).2 = r_i r + n - 1
     ∧ ∀ ks, r_keys r = Some ks → NoDup ks → 2 ≤ r_i r + n →
         (rIter_Key (rIter_Prev rn σ).2).1 ≠ slice_index (r_keys r) (r_i r + n - 2))
  ∧ ((rIter_Prev rn σ).1 = false ↔ r_i r + n = 0)
  ∧ (r_i r = 0 → ((rIter_Prev rn σ).1 = false ↔ n = 0))
  ∧ ∀ r', (rIter_Prev r' σ).1 = false ↔ r_i r' = 0.
Proof.
  intros Hn rn.
  destruct (rIter_Nexts_advance n r σ Hn) as (Hrn_i & Hrn_k & Hrn_m & Hrn).
  fold rn in Hrn_i, Hrn_k, Hrn_m, Hrn.
  assert (∀ r', (rIter_Prev r' σ).1 = false ↔ r_i r' = 0) as Hprev.
  { intros r'. unfold rIter_Prev. by case_bool_decide. }
  split_and!.
  - intros j Hj.
    destruct (rIter_Nexts_advance j r σ) as (Hj_i & Hj_k & _); [lia|].
    unfold rIter_Next. rewrite bool_decide_eq_false_2; [done|].
    rewrite Hj_i, Hj_k. lia.
  - done.
  - intros Hn1. destruct (Hrn Hn1) as [Hk Hv].
    assert (∃ ks, r_keys r = Some ks) as [ks Hks].
    { destruct (r_keys r); [by eexists|simpl in Hn; lia]. }
    assert (rIter_Key (rIter_Prev rn σ).2
            = (slice_index (r_keys r) (r_i r + n - 1), None)) as Hkey.
    { unfold rIter_Prev. rewrite bool_decide_eq_false_2 by lia.
      unfold rIter_Key. simpl. rewrite Hrn_k, Hks, Hrn_i.
      by replace (pred (r_i r + n)) with (r_i r + n - 1) by lia. }
    assert (rIter_Key rn = (slice_index (r_keys r) (r_i r + n - 1), None)) as Hkey'.
    { unfold rIter_Key. by rewrite Hrn_k, Hks, Hk, Hks. }
    split_and!.
    + done.
    + unfold rIter_Prev. by rewrite bool_decide_eq_false_2 by lia.
    + by rewrite Hkey, Hkey'.
    + unfold rIter_Prev. rewrite bool_decide_eq_false_2 by lia.
      unfold rIter_Val. simpl. rewrite Hrn_k, Hks, Hrn_i, Hrn_m, Hv, Hks.
      by replace (pred (r_i r + n)) with (r_i r + n - 1) by lia.
    + unfold rIter_Prev. rewrite bool_decide_eq_false_2 by lia.
      simpl. rewrite Hrn_i. lia.
    + intros ks' Hks' Hnd Hn2. rewrite Hkey, Hks'. simpl in *.
      rewrite Hks' in Hn. simpl in Hn.
      destruct (lookup_lt_is_Some_2 ks' (r_i r + n - 1)) as [x Hx]; [lia|].
      destruct (lookup_lt_is_Some_2 ks' (r_i r + n - 2)) as [y Hy]; [lia|].
      rewrite Hx, Hy. simpl. intros ->.
      pose proof (NoDup_lookup _ _ _ _ Hnd Hx Hy). lia.
  - rewrite Hprev. by rewrite Hrn_i.
  - intros Hi. rewrite Hprev, Hrn_i. lia.
  - done.
Qed.

(** The loop over an open iterator ends and has seen the keys from its
    index on, each with the value the map has for it. *)
Lemma sMapIter_loop_drop fuel ks i k v s σ :
  length ks - i < fuel →
  sMapIter_loop fuel (mk_sMapIter i (Some ks) k v (Some s)) σ
  = Some ((λ k, (k, (Get s k σ).1)) <$> drop i ks).
Proof.
  revert i k v. induction fuel as [|fuel IH]; intros i k v Hfuel; [lia|].
  cbn [sMapIter_loop]. unfold sMapIter_Next. simpl. case_bool_decide as Hi.
  - by rewrite drop_ge.
  - destruct (lookup_lt_is_Some_2 ks i) as [x Hx]; [lia|].
    unfold sMapIter_Key, sMapIter_Val. simpl.
    rewrite IH by lia. rewrite (drop_S _ _ _ Hx), Hx. done.
Qed.

Lemma rIter_loop_drop fuel ks i k v c σ :
  length ks - i < fuel →
  rIter_loop fuel (mk_rIter i (Some ks) k v (Some c)) σ
  = Some ((λ k, (k, (index σ (Some c) k).1)) <$> drop i ks).
Proof.
  revert i k v. induction fuel as [|fuel IH]; intros i k v Hfuel; [lia|].
  cbn [rIter_loop]. unfold rIter_Next. simpl. case_bool_decide as Hi.
  - by rewrite drop_ge.
  - destruct (lookup_lt_is_Some_2 ks i) as [x Hx]; [lia|].
    unfold rIter_Key, rIter_Val. simpl.
    rewrite IH by lia. rewrite (drop_S _ _ _ Hx), Hx. done.
Qed.

Lemma sort_keys_perm f ks : sort_keys f ks ≡ₚ ks.
Proof. destruct f; [apply SliceStable_perm | done]. Qed.

Lemma range_length n (mp : gmap K V) : length (range n mp) = size mp.
Proof. by rewrite range_perm, length_map_to_list. Qed.

(** Pairing the keys of a [range] with the values of the map gives the
    entries back. *)
Lemma range_values n (mp : gmap K V) :
  (λ k, (k, match mp !! k with Some v => v | None => zero end))
    <$> (range n mp).*1 = range n mp.
Proof.
  rewrite <- list_fmap_compose.
  rewrite <- (list_fmap_id (range n mp)) at 2.
  apply list_fmap_ext. intros i [k v] Hi. simpl.
  assert ((k, v) ∈ range n mp) as Hin by (by eapply list_elem_of_lookup_2).
  rewrite range_perm in Hin. apply elem_of_map_to_list in Hin. by rewrite Hin.
Qed.

(** C6. An iterator made by [RIter] holds a map object of its own.
    After any sequence of writes to the source ([Delete], [Set], [CAS],
    [Merge]) each call on the iterator returns what it returned before
    them, and the loop over it ends and yields exactly the entries the
    source had when [RIter] ran, among them every key deleted since. *)
Theorem RIter_snapshot f s σ cs fuel :
  allocated s σ →
  size (deref σ (m s)) < fuel →
  let r := (RIter f s σ).1 in
  let σ1 := (RIter f s σ).2 in
  let σ2 := mutate_all s cs σ1 in
  (∀ c r', r_m r' = r_m r → rIter_call c r' σ2 = rIter_call c r' σ1)
  ∧ ∃ out,
      rIter_loop fuel r σ2 = Some out
      ∧ rIter_loop fuel r σ1 = Some out
      ∧ out ≡ₚ map_to_list (deref σ (m s))
      ∧ (∀ k v, deref σ (m s) !! k = Some v → (k, v) ∈ out).
Proof.
  intros Hal Hfuel r σ1 σ2. subst r σ1 σ2.
  destruct (RIter_store f s σ) as (c & ks & Hr & [n Hks] & Hnew & Hd & Hfr).
  set (σ1 := (RIter f s σ).2) in *. set (σ2 := mutate_all s cs σ1).
  assert (c ≠ m s) as Hne.
  { intros ->. destruct Hal as [? Hal]. congruence. }
  assert (deref σ2 c = deref σ1 c) as Hd2.
  { apply deref_ext. by apply mutate_all_frame. }
  assert (∀ k, index σ2 (Some c) k = index σ1 (Some c) k) as Hidx.
  { intros k. simpl. by rewrite Hd2. }
  rewrite Hr. simpl. split.
  - intros call r' Hm.
    destruct call; simpl; unfold rIter_End, rIter_Next, rIter_Prev; simpl;
      rewrite ?Hm, ?Hidx; done.
  - assert (length (sort_keys f ks) - 0 < fuel) as Hlen.
    { rewrite sort_keys_perm, Hks, length_fmap, range_length. lia. }
    rewrite !rIter_loop_drop by done. rewrite drop_0.
    assert ((λ k, (k, (index σ2 (Some c) k).1)) <$> sort_keys f ks
            = (λ k, (k, (index σ1 (Some c) k).1)) <$> sort_keys f ks) as ->.
    { apply list_fmap_ext. intros i k _. by rewrite Hidx. }
    assert ((λ k, (k, (index σ1 (Some c) k).1)) <$> (range n (deref σ (m s))).*1
            = range n (deref σ (m s))) as Hvals.
    { etrans; [|apply (range_values n (deref σ (m s)))].
      apply list_fmap_ext. intros i k _. simpl.
      rewrite Hd. by destruct (deref σ (m s) !! k). }
    assert ((λ k, (k, (index σ1 (Some c) k).1)) <$> sort_keys f ks
            ≡ₚ map_to_list (deref σ (m s))) as Hperm.
    { by rewrite sort_keys_perm, Hks, Hvals, range_perm. }
    eexists. split_and!; [done|done|exact Hperm|].
    intros k v Hk. rewrite Hperm. by apply elem_of_map_to_list.
Qed.

(** The loop over an iterator made with a comparator. *)
Lemma Iter_sorted_general f s σ fuel :
  StrictWeakOrder f →
  size (deref σ (m s)) < fuel →
  let ks := (Keys s σ).1 in
  ∃ out,
    sMapIter_loop fuel (Iter (Some f) s σ).1 (Iter (Some f) s σ).2 = Some out
    ∧ ks ≡ₚ elements (dom (deref σ (m s)))
    ∧ out.*1 ≡ₚ ks
    ∧ StronglySorted (λ a b, f b a = false) out.*1
    ∧ (∀ a, List.filter (equiv_keys f a) out.*1 = List.filter (equiv_keys f a) ks)
    ∧ (∀ k v, (k, v) ∈ out → Get s k σ = (v, true)).
Proof.
  intros Hf Hfuel ks. destruct (Keys_store s σ) as [Hks Hheap].
  rewrite Iter_store. cbn [fst snd sort_keys]. fold ks.
  assert (length (SliceStable f ks) - 0 < fuel) as Hlen.
  { rewrite SliceStable_length. unfold ks.
    rewrite Hks, length_fmap, range_length. lia. }
  rewrite sMapIter_loop_drop by done. rewrite drop_0.
  eexists. split; [done|].
  assert (((λ k, (k, (Get s k (Keys s σ).2).1)) <$> SliceStable f ks).*1
          = SliceStable f ks) as ->.
  { rewrite <- list_fmap_compose. apply list_fmap_id. }
  split_and!.
  - unfold ks. rewrite Hks. apply range_keys_perm.
  - apply SliceStable_perm.
  - by apply SliceStable_sorted.
  - intros a. by apply SliceStable_stable.
  - intros k v Hin. apply list_elem_of_fmap in Hin as (k' & Heq & Hin).
    simplify_eq. rewrite (Get_ext s k' σ (Keys s σ).2) by (by rewrite Hheap).
    rewrite SliceStable_perm in Hin. unfold ks in Hin. rewrite Hks in Hin.
    apply list_elem_of_fmap in Hin as ([k v] & -> & Hin).
    rewrite range_perm in Hin. apply elem_of_map_to_list in Hin.
    simpl. by rewrite Get_lookup, Hin.
Qed.

Lemma sMapIter_Nexts_S n it σ :
  sMapIter_Nexts (S n) it σ = (sMapIter_Next (sMapIter_Nexts n it σ) σ).2.
Proof. done. Qed.

Lemma sMapIter_Next_m it σ : it_m (sMapIter_Next it σ).2 = it_m it.
Proof. unfold sMapIter_Next. by case_bool_decide. Qed.

Lemma sMapIter_Nexts_m n it σ : it_m (sMapIter_Nexts n it σ) = it_m it.
Proof.
  induction n as [|n IH]; [done|].
  by rewrite sMapIter_Nexts_S, sMapIter_Next_m.
Qed.

Lemma rIter_calls_snoc cs c r σ :
  rIter_calls (cs ++ [c]) r σ = (rIter_call c (rIter_calls cs r σ) σ).2.
Proof. unfold rIter_calls. by rewrite foldl_app. Qed.

(** C1, as the code has it.  [Key] and [Val] return the error "iterator
    closed" once [Close] has run, whatever was called before and after
    it, and only then.  On an iterator that is open, after any calls
    that move it, they return the key and value it holds, with no error:
    before any call these are the zero values of the two types, and
    after a call of [Next] that returned true ([Prev] or [End] also, on
    the iterator over a copy) they are the key at the index the call
    stopped at and the value the map has for it. *)
Theorem Key_Val_fail_iff_closed f s σ n cs :
  let it0 := (Iter f s σ).1 in
  let σ1 := (Iter f s σ).2 in
  let r0 := (RIter f s σ).1 in
  let σ2 := (RIter f s σ).2 in
  let it := sMapIter_Nexts n it0 σ1 in
  let r := rIter_calls cs r0 σ2 in
  (sMapIter_Key it0 = (zero, None) ∧ sMapIter_Val it0 = (zero, None)
   ∧ sMapIter_Key it = (it_k it, None) ∧ sMapIter_Val it = (it_v it, None)
   ∧ ((sMapIter_Next it σ1).1 = true →
      let k := slice_index (it_keys it) (it_i it) in
      sMapIter_Key (sMapIter_Next it σ1).2 = (k, None)
      ∧ sMapIter_Val (sMapIter_Next it σ1).2 = ((Get s k σ1).1, None))
   ∧ ∀ j,
       sMapIter_Key (sMapIter_Nexts j (sMapIter_Close it) σ1)
       = (zero, Some (errors_New "iterator closed"))
       ∧ sMapIter_Val (sMapIter_Nexts j (sMapIter_Close it) σ1)
         = (zero, Some (errors_New "iterator closed")))
  ∧ (rIter_Key r0 = (zero, None) ∧ rIter_Val r0 = (zero, None)
     ∧ rIter_Key r = (r_k r, None) ∧ rIter_Val r = (r_v r, None)
     ∧ ((rIter_Next r σ2).1 = true →
        let k := slice_index (r_keys r) (r_i r) in
        rIter_Key (rIter_Next r σ2).2 = (k, None)
        ∧ rIter_Val (rIter_Next r σ2).2 = ((index σ2 (r_m r) k).1, None))
     ∧ ((rIter_Prev r σ2).1 = true →
        let k := slice_index (r_keys r) (r_i r - 1) in
        rIter_Key (rIter_Prev r σ2).2 = (k, None)
        ∧ rIter_Val (rIter_Prev r σ2).2 = ((index σ2 (r_m r) k).1, None))
     ∧ ((rIter_End r σ2).1 = true →
        let k := slice_index (r_keys r) (slice_len (r_keys r) - 1) in
        rIter_Key (rIter_End r σ2).2 = (k, None)
        ∧ rIter_Val (rIter_End r σ2).2 = ((index σ2 (r_m r) k).1, None))
     ∧ ∀ cs',
         rIter_Key (rIter_calls cs' (rIter_Close r) σ2)
         = (zero, Some (errors_New "iterator closed"))
         ∧ rIter_Val (rIter_calls cs' (rIter_Close r) σ2)
           = (zero, Some (errors_New "iterator closed"))).
Proof.
  intros it0 σ1 r0 σ2 it r.
  assert (∃ ks, it_keys it = Some ks) as [ks Hks].
  { unfold it. rewrite sMapIter_Nexts_keys. unfold it0.
    rewrite Iter_store. by eexists. }
  assert (it_m it = Some s) as Hm.
  { unfold it. rewrite sMapIter_Nexts_m. unfold it0. by rewrite Iter_store. }
  destruct (RIter_store f s σ) as (c & ks0 & Hr0 & _).
  assert (∃ ks', r_keys r = Some ks') as [ks' Hks'].
  { unfold r. rewrite rIter_calls_keys. unfold r0. rewrite Hr0. by eexists. }
  split; split_and!.
  - unfold it0. by rewrite Iter_store.
  - unfold it0. by rewrite Iter_store.
  - unfold sMapIter_Key. by rewrite Hks.
  - unfold sMapIter_Val. by rewrite Hks.
  - unfold sMapIter_Next. case_bool_decide; [done|]. intros _.
    unfold sMapIter_Key, sMapIter_Val, it_map. simpl. by rewrite Hks, Hm.
  - intros j. by rewrite sMapIter_Nexts_closed.
  - unfold r0. by rewrite Hr0.
  - unfold r0. by rewrite Hr0.
  - unfold rIter_Key. by rewrite Hks'.
  - unfold rIter_Val. by rewrite Hks'.
  - unfold rIter_Next. case_bool_decide; [done|]. intros _.
    unfold rIter_Key, rIter_Val. simpl. by rewrite Hks'.
  - unfold rIter_Prev. case_bool_decide; [done|]. intros _.
    unfold rIter_Key, rIter_Val. simpl. rewrite Hks'.
    by replace (pred (r_i r)) with (r_i r - 1) by lia.
  - unfold rIter_End, rIter_Prev. simpl. case_bool_decide; [done|]. intros _.
    unfold rIter_Key, rIter_Val. simpl. rewrite Hks'.
    simpl.
    by replace (pred (length ks')) with (length ks' - 1) by lia.
  - intros cs'. by rewrite rIter_calls_closed.
Qed.
End iterator_claims.

(** ** The two tests of the specification, and runs of the statements *)

Lemma ascending_StrictWeakOrder : StrictWeakOrder Trial.ascending.
Proof.
  unfold Trial.ascending. split; unfold equiv_keys.
  - intros a. apply Z.ltb_irrefl.
  - intros a b c. rewrite !Z.ltb_lt. lia.
  - intros a b c. rewrite !andb_true_iff, !negb_true_iff, !Z.ltb_ge. lia.
Qed.

Lemma StronglySorted_impl {A : Type} (R1 R2 : relation A) (l : list A) :
  (∀ a b, R1 a b → R2 a b) → StronglySorted R1 l → StronglySorted R2 l.
Proof.
  intros HR. induction 1 as [|x l Hl IH Hx]; constructor; [done|].
  eapply Forall_impl; [exact Hx|]. intros y. apply HR.
Qed.

(** C7. [Filter] returns a new map object that holds exactly the entries
    of the map for which the callback returns true, and changes no map
    object that was there, the source among them; over
    [{1:1, 3:2, 5:10, 8:64, 9:24}] with the callback [v%k == 0] the
    result is [{1:1, 5:10, 8:64}]. *)
Theorem Filter_keeps_matching :
  (∀ (K : Type) `(Countable K) (V : Type) `(!Zero K, !Zero V, !RangeOrder K V)
     (cb : K → V → bool) (s : sMap) (σ : state (K := K) (V := V)),
     ∃ ret, (Filter cb s σ).1 = Some ret
       ∧ heap σ !! ret = None
       ∧ (∀ k v, deref (Filter cb s σ).2 ret !! k = Some v
                 ↔ deref σ (m s) !! k = Some v ∧ cb k v = true)
       ∧ (∀ l', l' ≠ ret → heap (Filter cb s σ).2 !! l' = heap σ !! l')
       ∧ (∀ k, Get s k (Filter cb s σ).2 = Get s k σ)
       ∧ Len s (Filter cb s σ).2 = Len s σ)
  ∧ (∀ `(!RangeOrder Z N) (s : sMap) (σ : state (K := Z) (V := N)),
       deref σ (m s)
       = {[1%Z := 1%N; 3%Z := 2%N; 5%Z := 10%N; 8%Z := 64%N; 9%Z := 24%N]} →
       ∃ ret, (Filter Trial.divides s σ).1 = Some ret
         ∧ deref (Filter Trial.divides s σ).2 ret
           = {[1%Z := 1%N; 5%Z := 10%N; 8%Z := 64%N]}).
Proof.
  split.
  - intros. apply Filter_general.
  - intros RO s σ Hmap.
    destruct (Filter_store Trial.divides s σ) as (ret & Hret & _ & _ & Hd & _).
    exists ret. split; [done|]. rewrite Hd, Hmap. by vm_compute.
Qed.

(** C8. With a comparator that is a strict weak ordering, the loop over
    the iterator of [Iter] ends and yields the keys [Keys] returned, each
    with its value in the map, sorted by the comparator: no key is less
    than an earlier one, and keys that compare equal come in the order
    [Keys] returned them.  With [a < b] over the keys
    [{21, 1, 3, 2, 15, 11}] the loop yields [1, 2, 3, 11, 15, 21]. *)
Theorem Iter_sorted_stable :
  (∀ (K : Type) `(Countable K) (V : Type) `(!Zero K, !Zero V, !RangeOrder K V)
     (f : K → K → bool) (s : sMap) (σ : state (K := K) (V := V)) (fuel : nat),
     StrictWeakOrder f →
     size (deref σ (m s)) < fuel →
     let ks := (Keys s σ).1 in
     ∃ out,
       sMapIter_loop fuel (Iter (Some f) s σ).1 (Iter (Some f) s σ).2 = Some out
       ∧ ks ≡ₚ elements (dom (deref σ (m s)))
       ∧ out.*1 ≡ₚ ks
       ∧ StronglySorted (λ a b, f b a = false) out.*1
       ∧ (∀ a, List.filter (equiv_keys f a) out.*1 = List.filter (equiv_keys f a) ks)
       ∧ (∀ k v, (k, v) ∈ out → Get s k σ = (v, true)))
  ∧ (∀ (V : Type) `(!Zero V, !RangeOrder Z V) (s : sMap)
       (σ : state (K := Z) (V := V)) (fuel : nat),
       dom (deref σ (m s)) = ({[21; 1; 3; 2; 15; 11]} : gset Z)%Z →
       6 < fuel →
       ∃ out,
         sMapIter_loop fuel (Iter (Some Trial.ascending) s σ).1
           (Iter (Some Trial.ascending) s σ).2 = Some out
         ∧ out.*1 = [1; 2; 3; 11; 15; 21]%Z).
Proof.
  split.
  - intros. by apply Iter_sorted_general.
  - intros V ZV RO s σ fuel Hdom Hfuel.
    assert (size (deref σ (m s)) = 6) as Hsize.
    { rewrite <- size_dom, Hdom. by vm_compute. }
    destruct (Iter_sorted_general Trial.ascending s σ fuel)
      as (out & Hout & Hks & Hperm & Hsorted & _).
    { apply ascending_StrictWeakOrder. }
    { lia. }
    exists out. split; [done|].
    apply (StronglySorted_unique Z.le).
    + eapply StronglySorted_impl; [|exact Hsorted].
      intros a b. unfold Trial.ascending. simpl. by rewrite Z.ltb_ge.
    + repeat constructor; lia.
    + rewrite Hperm, Hks, Hdom. apply NoDup_Permutation.
      * apply NoDup_elements.
      * apply (bool_decide_unpack (NoDup [1; 2; 3; 11; 15; 21]%Z)). by vm_compute.
      * intros x. rewrite elem_of_elements.
        rewrite !elem_of_union, !elem_of_singleton, !elem_of_cons, elem_of_nil.
        lia.
Qed.

(** C1, as stated, fails: right after [Iter] and [RIter], before any call
    of [Next], [Key] and [Val] return zero values and no error. *)
Lemma Key_before_Next_counterexample :
  let s := Trial.sorted_test.1 in
  let σ := Trial.sorted_test.2 in
  Get s 21%Z σ = (21%Z, true)
  ∧ sMapIter_Key (Iter None s σ).1 = (0%Z, None)
  ∧ sMapIter_Val (Iter None s σ).1 = (0%Z, None)
  ∧ rIter_Key (RIter None s σ).1 = (0%Z, None)
  ∧ rIter_Val (RIter None s σ).1 = (0%Z, None)
  ∧ sMapIter_Key (Iter None s σ).1 ≠ (zero, Some (errors_New "iterator closed"))
  ∧ rIter_Key (RIter None s σ).1 ≠ (zero, Some (errors_New "iterator closed")).
Proof. by vm_compute. Qed.

(** *** Runs of the statements on the maps of the tests *)

Lemma CAS_check_and_set_witness :
  CAS Trial.sorted_test.1 21%Z 0%Z Trial.sorted_test.2
  = (false, Trial.sorted_test.2)
  ∧ (CAS Trial.sorted_test.1 4%Z 7%Z Trial.sorted_test.2).1 = true
  ∧ Get Trial.sorted_test.1 4%Z
      (CAS Trial.sorted_test.1 4%Z 7%Z Trial.sorted_test.2).2 = (7%Z, true).
Proof.
  split.
  - apply (proj1 (CAS_check_and_set Trial.sorted_test.1 21%Z 0%Z Trial.sorted_test.2)).
    by vm_compute.
  - apply (proj2 (CAS_check_and_set Trial.sorted_test.1 4%Z 7%Z Trial.sorted_test.2)).
    by vm_compute.
Defined.

Lemma Merge_overwrite_or_keep_witness :
  let s := Trial.merge_test.1 in
  let σ := Trial.merge_test.2 in
  Get s 1%Z (Merge s (Some Trial.init) false σ) = Get s 1%Z σ
  ∧ Get s 2%Z (Merge s (Some Trial.init) false σ) = index σ (Some Trial.init) 2%Z
  ∧ Get s 1%Z (Merge s (Some Trial.init) true σ) = index σ (Some Trial.init) 1%Z
  ∧ Get s 4%Z (Merge s (Some Trial.init) true σ) = Get s 4%Z σ
  ∧ Merge s None true σ = σ.
Proof.
  intros s σ.
  destruct (Merge_overwrite_or_keep s (Some Trial.init) σ) as (H1 & H2 & H3 & H4 & _).
  destruct (Merge_overwrite_or_keep s None σ) as (_ & _ & _ & _ & H5).
  split_and!.
  - apply H1. by vm_compute.
  - apply H2. by vm_compute.
  - apply H3. by vm_compute.
  - apply H4. by vm_compute.
  - apply H5. by vm_compute.
Defined.

Lemma Trial_sorted_allocated : allocated Trial.sorted_test.1 Trial.sorted_test.2.
Proof. vm_compute. eexists. reflexivity. Defined.

Lemma Clone_independent_witness :
  let s := Trial.sorted_test.1 in
  let σ := Trial.sorted_test.2 in
  let c := (Clone s σ).1 in
  let σ1 := (Clone s σ).2 in
  Get c 21%Z σ1 = Get s 21%Z σ
  ∧ Get c 21%Z (mutate_all s [MDelete [21%Z]; MSet 1%Z 5%Z] σ1) = Get c 21%Z σ1
  ∧ Get s 1%Z (mutate_all c [MDelete [1%Z]; MSet 21%Z 5%Z] σ1) = Get s 1%Z σ1.
Proof.
  intros s σ c σ1.
  destruct (Clone_independent s σ Trial_sorted_allocated)
    as (Hsame & _ & _ & _ & _ & _ & _ & Hind).
  split_and!.
  - apply Hsame.
  - apply (Hind σ1 [MDelete [21%Z]; MSet 1%Z 5%Z]).
  - apply (Hind σ1 [MDelete [1%Z]; MSet 21%Z 5%Z]).
Defined.

Lemma RIter_snapshot_witness :
  let s := Trial.sorted_test.1 in
  let σ := Trial.sorted_test.2 in
  let r := (RIter None s σ).1 in
  let σ1 := (RIter None s σ).2 in
  let σ2 := mutate_all s [MDelete [21%Z]] σ1 in
  Get s 21%Z σ2 = (0%Z, false)
  ∧ ∃ out, rIter_loop 7 r σ2 = Some out ∧ (21%Z, 21%Z) ∈ out.
Proof.
  intros s σ r σ1 σ2. split; [by vm_compute|].
  destruct (RIter_snapshot None s σ [MDelete [21%Z]] 7 Trial_sorted_allocated)
    as (_ & out & Hout & _ & _ & Hin).
  { vm_compute. lia. }
  exists out. split; [exact Hout|]. apply Hin. by vm_compute.
Defined.

Lemma Filter_keeps_matching_witness :
  ∃ ret, (Filter Trial.divides Trial.filter_test.1 Trial.filter_test.2).1 = Some ret
    ∧ deref (Filter Trial.divides Trial.filter_test.1 Trial.filter_test.2).2 ret
      = {[1%Z := 1%N; 5%Z := 10%N; 8%Z := 64%N]}.
Proof.
  apply (proj2 Filter_keeps_matching _ Trial.filter_test.1 Trial.filter_test.2).
  by vm_compute.
Defined.

Lemma Iter_sorted_stable_witness :
  let s := Trial.sorted_test.1 in
  let σ := Trial.sorted_test.2 in
  (∃ out,
     sMapIter_loop 7 (Iter (Some Trial.ascending) s σ).1
       (Iter (Some Trial.ascending) s σ).2 = Some out
     ∧ out.*1 = [1; 2; 3; 11; 15; 21]%Z)
  ∧ (∃ out,
       sMapIter_loop 7 (Iter (Some Trial.ascending) s σ).1
         (Iter (Some Trial.ascending) s σ).2 = Some out
       ∧ StronglySorted (λ a b, Trial.ascending b a = false) out.*1).
Proof.
  intros s σ. split.
  - apply (proj2 Iter_sorted_stable Z _ _ s σ 7); [by vm_compute|lia].
  - destruct (proj1 Iter_sorted_stable Z _ _ Z _ _ _ Trial.ascending s σ 7)
      as (out & Hout & _ & _ & Hsorted & _).
    + apply ascending_StrictWeakOrder.
    + vm_compute. lia.
    + exists out. by split.
Defined.

Lemma Prev_after_Next_witness :
  let s := Trial.sorted_test.1 in
  let σ := Trial.sorted_test.2 in
  let r := (RIter (Some Trial.ascending) s σ).1 in
  let σ1 := (RIter (Some Trial.ascending) s σ).2 in
  let r3 := rIter_Nexts 3 r σ1 in
  rIter_Key r3 = (3%Z, None)
  ∧ (rIter_Prev r3 σ1).1 = true
  ∧ rIter_Key (rIter_Prev r3 σ1).2 = rIter_Key r3
  ∧ (rIter_Key (rIter_Prev r3 σ1).2).1 ≠ 2%Z.
Proof.
  intros s σ r σ1 r3.
  destruct (Prev_after_Next 3 r σ1) as (_ & _ & Hprev & _).
  - vm_compute. lia.
  - destruct Hprev as (Hkey & Htrue & Hsame & _ & _ & Hother); [lia|].
    split_and!; [exact Hkey | exact Htrue | exact Hsame |].
    apply (Hother [1; 2; 3; 11; 15; 21]%Z).
    + by vm_compute.
    + apply (bool_decide_unpack (NoDup [1; 2; 3; 11; 15; 21]%Z)). by vm_compute.
    + vm_compute. lia.
Defined.

Lemma Key_Val_fail_iff_closed_witness :
  let s := Trial.sorted_test.1 in
  let σ := Trial.sorted_test.2 in
  let it := sMapIter_Nexts 1 (Iter (Some Trial.ascending) s σ).1
              (Iter (Some Trial.ascending) s σ).2 in
  sMapIter_Key (sMapIter_Next it (Iter (Some Trial.ascending) s σ).2).2
  = (slice_index (it_keys it) (it_i it), None).
Proof.
  intros s σ it.
  destruct (Key_Val_fail_iff_closed (Some Trial.ascending) s σ 1 [])
    as [(_ & _ & _ & _ & Hnext & _) _].
  apply Hnext. by vm_compute.
Defined.

(** ** More on the map: [Set], [Delete], [Keys], [Raw], [New], [Merge] *)
Section sMap_more.
Context {K : Type} `{Countable K} {V : Type}.
Context `{!Zero K, !Zero V, !RangeOrder K V}.
Implicit Types (σ : state (K := K) (V := V)) (l : loc) (s : sMap).
Implicit Types (mp : gmap K V).

Lemma Get_true_iff s k σ : (Get s k σ).2 = true ↔ is_Some (deref σ (m s) !! k).
Proof.
  rewrite Get_lookup. destruct (deref σ (m s) !! k); simpl.
  - split; [by eexists|done].
  - split; [done|]. by intros [? ?].
Qed.

Lemma Get_false_iff s k σ : (Get s k σ).2 = false ↔ deref σ (m s) !! k = None.
Proof. rewrite Get_lookup. by destruct (deref σ (m s) !! k). Qed.

Lemma Get_Set s k v σ k' :
  Get s k' (Set_ s k v σ) = if decide (k' = k) then (v, true) else Get s k' σ.
Proof.
  unfold Set_. rewrite !Get_lookup, deref_store_eq. case_decide as Hk.
  - subst. by rewrite lookup_insert_eq.
  - by rewrite lookup_insert_ne.
Qed.

Lemma Len_Set s k v σ :
  Len s (Set_ s k v σ) = (if (Get s k σ).2 then Len s σ else S (Len s σ)).
Proof.
  unfold Set_, Len, len. rewrite deref_store_eq, Get_lookup.
  destruct (deref σ (m s) !! k) as [v0|] eqn:Hk; simpl.
  - by apply map_size_insert_Some.
  - by apply map_size_insert_None.
Qed.

(** X1. After [Set(k, v)], [Get(k)] returns [(v, true)] and every other
    key reads as before; the map grows by one key exactly when [k] was
    absent, and no other map object is touched. *)
Theorem Set_then_Get s k v σ :
  (∀ k', Get s k' (Set_ s k v σ) = if decide (k' = k) then (v, true) else Get s k' σ)
  ∧ Len s (Set_ s k v σ) = (if (Get s k σ).2 then Len s σ else S (Len s σ))
  ∧ ∀ l, heap (Set_ s k v σ) !! l
         = if decide (l = m s) then Some (<[k := v]> (deref σ (m s))) else heap σ !! l.
Proof.
  split_and!.
  - apply Get_Set.
  - apply Len_Set.
  - intros l. unfold Set_. case_decide as Hl.
    + subst. unfold store. simpl. by rewrite lookup_insert_eq.
    + by apply heap_store_ne.
Qed.

Lemma delete_all_lookup (keys : list K) mp k :
  foldl (λ mp k, delete k mp) mp keys !! k
  = if decide (k ∈ keys) then None else mp !! k.
Proof.
  revert mp. induction keys as [|k0 keys IH]; intros mp; cbn [foldl].
  { case_decide as Hin; [|done]. by apply elem_of_nil in Hin. }
  rewrite IH. rewrite (decide_ext (k ∈ k0 :: keys) (k = k0 ∨ k ∈ keys))
    by apply elem_of_cons.
  destruct (decide (k ∈ keys)) as [Hin|Hnin].
  - rewrite decide_True; [done|]. by right.
  - destruct (decide (k = k0)) as [->|Hne].
    + rewrite lookup_delete_eq. rewrite decide_True; [done|]. by left.
    + rewrite lookup_delete_ne by done. rewrite decide_False; [done|]. tauto.
Qed.

Lemma delete_all_size (keys : list K) mp :
  size (foldl (λ mp k, delete k mp) mp keys) ≤ size mp.
Proof.
  revert mp. induction keys as [|k0 keys IH]; intros mp; simpl; [done|].
  etrans; [apply IH|]. destruct (mp !! k0) eqn:Hk.
  - rewrite map_size_delete_Some by eauto. lia.
  - by rewrite delete_id.
Qed.

Lemma Get_Delete s keys σ k :
  Get s k (Delete s keys σ) = if decide (k ∈ keys) then (zero, false) else Get s k σ.
Proof.
  destruct (Delete_store s keys σ) as [Hd _].
  rewrite !Get_lookup, Hd, delete_all_lookup. by case_decide.
Qed.

(** X2. After [Delete(keys...)] each of the keys reads as absent, with the
    zero value, and every other key reads as before, whether or not the
    keys were there; the map does not grow, a call with no key changes
    nothing, and no other map object is touched. *)
Theorem Delete_removes s keys σ :
  (∀ k, Get s k (Delete s keys σ)
        = if decide (k ∈ keys) then (zero, false) else Get s k σ)
  ∧ Len s (Delete s keys σ) ≤ Len s σ
  ∧ Delete s [] σ = σ
  ∧ ∀ l, l ≠ m s → heap (Delete s keys σ) !! l = heap σ !! l.
Proof.
  destruct (Delete_store s keys σ) as [Hd Hfr]. split_and!.
  - intros k. apply Get_Delete.
  - unfold Len, len. rewrite Hd. apply delete_all_size.
  - done.
  - done.
Qed.

(** X3. [Keys] returns every key of the map exactly once: the slice has
    no duplicates, its length is [Len()], a key is in it exactly when
    [Get] finds it, and the call changes no map object. *)
Theorem Keys_each_key_once s σ :
  NoDup (Keys s σ).1
  ∧ length (Keys s σ).1 = Len s σ
  ∧ (∀ k, k ∈ (Keys s σ).1 ↔ (Get s k σ).2 = true)
  ∧ heap (Keys s σ).2 = heap σ.
Proof.
  destruct (Keys_store s σ) as [Hks Hheap]. rewrite Hks. split_and!.
  - apply range_NoDup.
  - unfold Len, len. by rewrite length_fmap, range_perm, length_map_to_list.
  - intros k. rewrite range_keys_perm, elem_of_elements, elem_of_dom.
    symmetry. apply Get_true_iff.
  - done.
Qed.

Lemma heap_extended σ σ' ret :
  heap σ !! ret = None →
  (∀ l, l ≠ ret → heap σ' !! l = heap σ !! l) →
  heap σ ⊆ heap σ'.
Proof.
  intros Hnew Hfr. apply map_subseteq_spec. intros l mp Hl.
  rewrite Hfr; [done|]. intros ->. congruence.
Qed.

(** X4. [Raw] returns a new, non-nil map with the entries of the source
    and leaves every map object that was there as it was.  When the map
    of the source has been made, the copy is detached: writes through the
    source do not reach it, and writes to the copy do not reach the
    source. *)
Theorem Raw_detached s σ :
  allocated s σ →
  ∃ ret, (Raw s σ).1 = Some ret
    ∧ heap σ !! ret = None
    ∧ entries (Raw s σ).2 (Some ret) = deref σ (m s)
    ∧ heap σ ⊆ heap (Raw s σ).2
    ∧ (∀ cs, deref (mutate_all s cs (Raw s σ).2) ret = deref σ (m s))
    ∧ (∀ k v k', Get s k' (store (Raw s σ).2 ret k v) = Get s k' σ)
    ∧ (∀ k k', Get s k' (delete_key (Raw s σ).2 ret k) = Get s k' σ).
Proof.
  intros Hal. destruct (Raw_store s σ) as (ret & Hret & Hnew & _ & Hd & Hfr).
  assert (m s ≠ ret) as Hne.
  { intros Heq. rewrite <- Heq in Hnew. destruct Hal as [? Hal]. congruence. }
  exists ret. split_and!; [done|done|done| | | |].
  - by eapply heap_extended.
  - intros cs. rewrite <- Hd. apply deref_ext. by apply mutate_all_frame.
  - intros k v k'. apply Get_ext. rewrite heap_store_ne by done. by apply Hfr.
  - intros k k'. apply Get_ext. rewrite heap_delete_key_ne by done. by apply Hfr.
Qed.

Lemma heap_one_more σ σ' ret mp :
  is_Some (heap σ' !! ret) → deref σ' ret = mp →
  (∀ l, l ≠ ret → heap σ' !! l = heap σ !! l) →
  heap σ' = <[ret := mp]> (heap σ).
Proof.
  intros [x Hx] Hd Hfr. apply map_eq. intros l.
  destruct (decide (l = ret)) as [->|Hne].
  - rewrite lookup_insert_eq, Hx. f_equal. unfold deref in Hd. by rewrite Hx in Hd.
  - rewrite lookup_insert_ne by done. by apply Hfr.
Qed.

(** X5. [New(init)] makes a map object that was not there, with the
    entries of [init]: the store of maps after it is the store before it
    with that one object more, [Get] returns what [init] has for each key
    and [Len] is [len(init)], which is 0 for nil; every map object that
    was there, [init] among them, is left as it was. *)
Theorem New_seeded init σ :
  heap σ !! m (New init σ).1 = None
  ∧ allocated (New init σ).1 (New init σ).2
  ∧ heap (New init σ).2 = <[m (New init σ).1 := entries σ init]> (heap σ)
  ∧ (∀ k, Get (New init σ).1 k (New init σ).2 = index σ init k)
  ∧ Len (New init σ).1 (New init σ).2 = len σ init
  ∧ Len (New None σ).1 (New None σ).2 = 0
  ∧ heap σ ⊆ heap (New init σ).2.
Proof.
  destruct (New_spec init σ) as (Hnew & Hal & Hd & Hfr).
  destruct (New_spec None σ) as (_ & _ & Hd0 & _).
  split_and!.
  - done.
  - done.
  - by apply heap_one_more.
  - intros k. by rewrite Get_lookup, index_lookup, Hd.
  - unfold Len, len. rewrite Hd. by destruct init.
  - unfold Len, len. rewrite Hd0. simpl. apply map_size_empty.
  - by eapply heap_extended.
Qed.

(** X18. [New(init)] copies [init]: when [init] is a map that is there,
    the new map is another object, and what is written to or deleted from
    [init] afterwards does not show in the new map. *)
Theorem New_detached_from_init l σ :
  is_Some (heap σ !! l) →
  m (New (Some l) σ).1 ≠ l
  ∧ (∀ k v k', Get (New (Some l) σ).1 k' (store (New (Some l) σ).2 l k v)
               = Get (New (Some l) σ).1 k' (New (Some l) σ).2)
  ∧ (∀ k k', Get (New (Some l) σ).1 k' (delete_key (New (Some l) σ).2 l k)
             = Get (New (Some l) σ).1 k' (New (Some l) σ).2).
Proof.
  intros [mp Hl]. destruct (New_spec (Some l) σ) as (Hnew & _ & _ & _).
  assert (m (New (Some l) σ).1 ≠ l) as Hne by (intros Heq; congruence).
  split_and!; [done| |].
  - intros k v k'. by apply Get_ext, heap_store_ne.
  - intros k k'. by apply Get_ext, heap_delete_key_ne.
Qed.

(** X6. [CAS] composes as a write-once: a second [CAS] on the same key
    fails and changes nothing, whatever the first one did; right after
    [Delete(k)] a [CAS(k, v)] succeeds; [Len] grows by one exactly when
    [CAS] returns true, and no other key changes. *)
Theorem CAS_write_once s k v v' σ :
  CAS s k v' (CAS s k v σ).2 = (false, (CAS s k v σ).2)
  ∧ (CAS s k v (Delete s [k] σ)).1 = true
  ∧ Get s k (CAS s k v (Delete s [k] σ)).2 = (v, true)
  ∧ Len s (CAS s k v σ).2 = (if (CAS s k v σ).1 then S (Len s σ) else Len s σ)
  ∧ ∀ k', Get s k' (CAS s k v σ).2
          = if decide (k' = k) then (if (Get s k σ).2 then Get s k σ else (v, true))
            else Get s k' σ.
Proof.
  assert (∀ σ0 w, (Get s k σ0).2 = true → CAS s k w σ0 = (false, σ0)) as Hpresent.
  { intros σ0 w Hk. unfold CAS. fold (Get s k σ0). by rewrite Hk. }
  assert (∀ σ0 w, (Get s k σ0).2 = false → CAS s k w σ0 = (true, Set_ s k w σ0))
    as Habsent.
  { intros σ0 w Hk. unfold CAS. fold (Get s k σ0). by rewrite Hk. }
  assert (Get s k (Delete s [k] σ) = (zero, false)) as Hdel.
  { rewrite Get_Delete, decide_True; [done|]. by left. }
  split_and!.
  - apply Hpresent. destruct (Get s k σ).2 eqn:Hk.
    + by rewrite (Hpresent σ v).
    + rewrite (Habsent σ v) by done. simpl. by rewrite Get_Set, decide_True.
  - rewrite Habsent; [done|]. by rewrite Hdel.
  - rewrite Habsent by (by rewrite Hdel). simpl. by rewrite Get_Set, decide_True.
  - destruct (Get s k σ).2 eqn:Hk.
    + by rewrite (Hpresent σ v).
    + rewrite (Habsent σ v) by done. simpl. by rewrite Len_Set, Hk.
  - intros k'. destruct (Get s k σ).2 eqn:Hk.
    + rewrite (Hpresent σ v) by done. simpl. case_decide; by subst.
    + rewrite (Habsent σ v) by done. simpl. by rewrite Get_Set.
Qed.

Lemma entries_Merge s src overwrite σ :
  entries (Merge s src overwrite σ) src = entries σ src.
Proof.
  destruct src as [l|]; [|done]. simpl.
  destruct (decide (l = m s)) as [->|Hne].
  - rewrite Merge_deref. simpl. apply map_eq. intros k.
    destruct overwrite; rewrite lookup_union; by destruct (deref σ (m s) !! k).
  - by apply deref_ext, Merge_frame.
Qed.

Lemma size_union_bounds (a b : gmap K V) :
  size a ≤ size (a ∪ b) ∧ size b ≤ size (a ∪ b) ∧ size (a ∪ b) ≤ size a + size b.
Proof.
  rewrite <- !size_dom, dom_union_L. split_and!.
  - apply subseteq_size, union_subseteq_l.
  - apply subseteq_size, union_subseteq_r.
  - rewrite size_union_alt.
    assert (size (dom b ∖ dom a) ≤ size (dom b)); [|lia].
    apply subseteq_size, elem_of_subseteq. intros x.
    rewrite elem_of_difference. tauto.
Qed.

(** X7. After [Merge] the map has exactly the keys of the destination
    and of the source, so [Len] is at least each of the two lengths and at
    most their sum; no map object but the destination changes; merging
    the same source again changes no entry; and an overwriting merge
    after a keeping one gives what the overwriting merge alone gives. *)
Theorem Merge_keys_union s src overwrite σ :
  (∀ k, (Get s k (Merge s src overwrite σ)).2 = (Get s k σ).2 || (index σ src k).2)
  ∧ Len s σ ≤ Len s (Merge s src overwrite σ)
  ∧ len σ src ≤ Len s (Merge s src overwrite σ)
  ∧ Len s (Merge s src overwrite σ) ≤ Len s σ + len σ src
  ∧ (∀ l, l ≠ m s → heap (Merge s src overwrite σ) !! l = heap σ !! l)
  ∧ (∀ k, Get s k (Merge s src overwrite (Merge s src overwrite σ))
          = Get s k (Merge s src overwrite σ))
  ∧ (∀ k, Get s k (Merge s src true (Merge s src false σ))
          = Get s k (Merge s src true σ)).
Proof.
  assert (len σ src = size (entries σ src)) as Hlen by (by destruct src).
  split_and!.
  - intros k. rewrite !Get_lookup, index_lookup, Merge_deref.
    destruct overwrite; rewrite lookup_union;
      by destruct (deref σ (m s) !! k), (entries σ src !! k).
  - unfold Len, len. rewrite Merge_deref.
    destruct overwrite; apply size_union_bounds.
  - rewrite Hlen. unfold Len, len. rewrite Merge_deref.
    destruct overwrite; apply size_union_bounds.
  - rewrite Hlen. unfold Len, len. rewrite Merge_deref.
    destruct overwrite; [rewrite Nat.add_comm|]; apply size_union_bounds.
  - intros l Hne. by apply Merge_frame.
  - intros k. rewrite !Get_lookup, (Merge_deref s src overwrite (Merge _ _ _ _)).
    rewrite entries_Merge, Merge_deref.
    destruct overwrite; rewrite !lookup_union;
      by destruct (deref σ (m s) !! k), (entries σ src !! k).
  - intros k. rewrite !Get_lookup, (Merge_deref s src true (Merge _ _ _ _)).
    rewrite entries_Merge, !Merge_deref, !lookup_union.
    by destruct (deref σ (m s) !! k), (entries σ src !! k).
Qed.

(** X8. [Filter] at its edges and in sequence: the result never has more
    keys than the map; a callback that accepts everything gives a copy of
    all entries and one that rejects everything gives an empty map that is
    not nil; and filtering a map made with [New] from a first result keeps
    exactly the entries both callbacks accept. *)
Theorem Filter_in_sequence cb1 cb2 s σ :
  len (Filter cb1 s σ).2 (Filter cb1 s σ).1 ≤ Len s σ
  ∧ entries (Filter (λ _ _, true) s σ).2 (Filter (λ _ _, true) s σ).1 = deref σ (m s)
  ∧ (Filter (λ _ _, false) s σ).1 ≠ None
  ∧ len (Filter (λ _ _, false) s σ).2 (Filter (λ _ _, false) s σ).1 = 0
  ∧ let r1 := (Filter cb1 s σ).1 in
    let σ1 := (Filter cb1 s σ).2 in
    let t := (New r1 σ1).1 in
    let σ2 := (New r1 σ1).2 in
    ∀ k v, entries (Filter cb2 t σ2).2 (Filter cb2 t σ2).1 !! k = Some v
           ↔ deref σ (m s) !! k = Some v ∧ cb1 k v = true ∧ cb2 k v = true.
Proof.
  split_and!.
  - destruct (Filter_store cb1 s σ) as (ret & -> & _ & _ & Hd & _).
    unfold Len, len. rewrite Hd. apply map_subseteq_size, map_filter_subseteq.
  - destruct (Filter_store (λ _ _, true) s σ) as (ret & -> & _ & _ & Hd & _).
    cbn [entries]. rewrite Hd. apply map_eq. intros k.
    destruct (deref σ (m s) !! k) as [v|] eqn:Hk.
    + by apply map_lookup_filter_Some.
    + apply map_lookup_filter_None. by left.
  - by destruct (Filter_store (λ _ _, false) s σ) as (ret & -> & _).
  - destruct (Filter_store (λ _ _, false) s σ) as (ret & -> & _ & _ & Hd & _).
    cbn [len]. rewrite Hd. apply map_size_empty_iff, map_eq. intros k.
    rewrite lookup_empty. apply map_lookup_filter_None. right. by intros v _.
  - intros r1 σ1 t σ2 k v.
    destruct (Filter_store cb1 s σ) as (ret1 & Hr1 & _ & _ & Hd1 & _).
    destruct (New_spec r1 σ1) as (_ & _ & Hdt & _).
    destruct (Filter_store cb2 t σ2) as (ret2 & -> & _ & _ & Hd2 & _).
    cbn [entries]. rewrite Hd2. fold t σ2 in Hdt. rewrite Hdt. unfold r1.
    rewrite Hr1. cbn [entries]. fold σ1 in Hd1. rewrite Hd1.
    rewrite !map_lookup_filter_Some. simpl. tauto.
Qed.

(** X9. [Set] and [Delete] on one key in sequence: the later call
    decides.  [Delete] after [Set] leaves the key absent, [Set] after
    [Delete] or after another [Set] leaves the last value, and in each
    case every other key reads as before. *)
Theorem Set_Delete_last_wins s k v v' σ :
  (∀ k', Get s k' (Delete s [k] (Set_ s k v σ))
         = if decide (k' = k) then (zero, false) else Get s k' σ)
  ∧ (∀ k', Get s k' (Set_ s k v (Delete s [k] σ))
           = if decide (k' = k) then (v, true) else Get s k' σ)
  ∧ (∀ k', Get s k' (Set_ s k v' (Set_ s k v σ))
           = if decide (k' = k) then (v', true) else Get s k' σ).
Proof.
  split_and!; intros k'.
  - rewrite Get_Delete, Get_Set.
    rewrite (decide_ext (k' ∈ [k]) (k' = k)) by apply list_elem_of_singleton.
    by case_decide.
  - rewrite Get_Set, Get_Delete.
    rewrite (decide_ext (k' ∈ [k]) (k' = k)) by apply list_elem_of_singleton.
    by case_decide.
  - rewrite !Get_Set. by case_decide.
Qed.

(** X10. The calls that only read the map change no map object that is
    there: [Keys] and [Iter] leave the store of maps as it is, and [Raw],
    [RIter], [Filter] and [Clone] add exactly one map object to it, at an
    address that was free, and change none: the store after the call is
    the store before it with the copy (for [Filter], the accepted
    entries) put at that address. *)
Theorem read_calls_keep_maps f cb s σ :
  heap (Keys s σ).2 = heap σ
  ∧ heap (Iter f s σ).2 = heap σ
  ∧ (∃ ret, (Raw s σ).1 = Some ret ∧ heap σ !! ret = None
       ∧ heap (Raw s σ).2 = <[ret := deref σ (m s)]> (heap σ))
  ∧ (∃ ret, r_m (RIter f s σ).1 = Some ret ∧ heap σ !! ret = None
       ∧ heap (RIter f s σ).2 = <[ret := deref σ (m s)]> (heap σ))
  ∧ (∃ ret, (Filter cb s σ).1 = Some ret ∧ heap σ !! ret = None
       ∧ heap (Filter cb s σ).2
         = <[ret := filter (λ kv, cb kv.1 kv.2 = true) (deref σ (m s))]> (heap σ))
  ∧ (heap σ !! m (Clone s σ).1 = None
     ∧ heap (Clone s σ).2 = <[m (Clone s σ).1 := deref σ (m s)]> (heap σ)).
Proof.
  split_and!.
  - apply Keys_store.
  - unfold Iter. destruct (Keys s σ) as [ks σ1] eqn:Hk. simpl.
    replace σ1 with (Keys s σ).2 by (by rewrite Hk). apply Keys_store.
  - destruct (Raw_store s σ) as (ret & Hret & Hnew & Hal & Hd & Hfr).
    exists ret. split_and!; [done..|]. by apply heap_one_more.
  - destruct (Raw_store s σ) as (ret & Hret & Hnew & Hal & Hd & Hfr).
    unfold RIter. destruct (Raw s σ) as [cpy σ1]. simpl in *. subst cpy.
    exists ret. split_and!; [done..|]. by apply heap_one_more.
  - destruct (Filter_store cb s σ) as (ret & Hret & Hnew & Hal & Hd & Hfr).
    exists ret. split_and!; [done..|]. by apply heap_one_more.
  - by destruct (New_spec (Some (m s)) σ) as (Hnew & _).
  - destruct (New_spec (Some (m s)) σ) as (Hnew & Hal & Hd & Hfr).
    unfold Clone. by apply heap_one_more.
Qed.
End sMap_more.

(** ** More on the iterators *)
Section iterators_more.
Context {K : Type} `{Countable K} {V : Type}.
Context `{!Zero K, !Zero V, !RangeOrder K V}.
Implicit Types (σ : state (K := K) (V := V)) (l : loc) (s : sMap).
Implicit Types (it : sMapIter (K := K) (V := V)) (r : rIter (K := K) (V := V)).
Implicit Types (ks : list K) (mp : gmap K V).

Lemma sort_keys_of_range f n mp :
  NoDup (sort_keys f (range n mp).*1)
  ∧ length (sort_keys f (range n mp).*1) = size mp
  ∧ ∀ k, k ∈ sort_keys f (range n mp).*1 ↔ is_Some (mp !! k).
Proof.
  split_and!.
  - rewrite sort_keys_perm. apply range_NoDup.
  - by rewrite sort_keys_perm, length_fmap, range_length.
  - intros k.
    by rewrite sort_keys_perm, range_keys_perm, elem_of_elements, elem_of_dom.
Qed.

(** Where [Iter] and [RIter] start. *)
Lemma Iter_start f s σ :
  ∃ ks, (Iter f s σ).1 = mk_sMapIter 0 (Some ks) zero zero (Some s)
    ∧ ks = sort_keys f (Keys s σ).1
    ∧ heap (Iter f s σ).2 = heap σ
    ∧ NoDup ks ∧ length ks = Len s σ
    ∧ ∀ k, k ∈ ks ↔ is_Some (deref σ (m s) !! k).
Proof.
  destruct (Keys_store s σ) as [Hks Hheap].
  rewrite Iter_store. eexists. split; [done|]. split; [done|]. split; [done|].
  rewrite Hks. apply sort_keys_of_range.
Qed.

Lemma RIter_start f s σ :
  ∃ c ks, (RIter f s σ).1 = mk_rIter 0 (Some ks) zero zero (Some c)
    ∧ deref (RIter f s σ).2 c = deref σ (m s)
    ∧ NoDup ks ∧ length ks = Len s σ
    ∧ ∀ k, k ∈ ks ↔ is_Some (deref σ (m s) !! k).
Proof.
  destruct (RIter_store f s σ) as (c & ks & Hr & [n Hks] & _ & Hd & _).
  exists c, (sort_keys f ks). split; [done|]. split; [done|].
  rewrite Hks. apply sort_keys_of_range.
Qed.

(** The loop over a live iterator, whatever the comparator. *)
Lemma live_loop_entries mp ks (g : K → K * V) :
  NoDup ks → (∀ k, k ∈ ks ↔ is_Some (mp !! k)) →
  (∀ k v, mp !! k = Some v → g k = (k, v)) →
  g <$> ks ≡ₚ map_to_list mp.
Proof.
  intros Hnd Hin Hg. apply NoDup_Permutation.
  - apply (NoDup_fmap_1 fst). rewrite <- list_fmap_compose.
    rewrite (list_fmap_ext (fst ∘ g) id ks); [by rewrite list_fmap_id|].
    intros i k Hk. simpl.
    destruct (proj1 (Hin k)) as [v Hv]; [by eapply list_elem_of_lookup_2|].
    by rewrite (Hg k v).
  - apply NoDup_map_to_list.
  - intros [k v]. rewrite elem_of_map_to_list, list_elem_of_fmap. split.
    + intros (k' & Heq & Hk'). destruct (proj1 (Hin k') Hk') as [v' Hv'].
      rewrite (Hg k' v' Hv') in Heq. by simplify_eq.
    + intros Hkv. exists k. split; [by rewrite (Hg k v)|].
      apply Hin. by eexists.
Qed.

(** X11. Whatever comparator [Iter] is given, or none, the loop over the
    iterator ends after [Len()] rounds and has seen every entry of the map
    exactly once: the keys are those [Keys] returned, each with its value
    in the map.  Without a comparator they come in the order [Keys]
    returned them. *)
Theorem Iter_visits_each_entry_once f s σ n :
  (∃ out,
     sMapIter_loop (S (Len s σ) + n) (Iter f s σ).1 (Iter f s σ).2 = Some out
     ∧ out ≡ₚ map_to_list (deref σ (m s))
     ∧ NoDup out.*1
     ∧ out.*1 ≡ₚ (Keys s σ).1
     ∧ length out = Len s σ)
  ∧ (∃ out,
       sMapIter_loop (S (Len s σ) + n) (Iter None s σ).1 (Iter None s σ).2 = Some out
       ∧ out.*1 = (Keys s σ).1).
Proof.
  assert (∀ g, ∃ ks out,
    sMapIter_loop (S (Len s σ) + n) (Iter g s σ).1 (Iter g s σ).2 = Some out
    ∧ out.*1 = ks ∧ ks = sort_keys g (Keys s σ).1
    ∧ out ≡ₚ map_to_list (deref σ (m s)) ∧ NoDup ks ∧ length out = Len s σ)
    as Hloop.
  { intros g.
    destruct (Iter_start g s σ) as (ks & Hit & Hks & Hheap & Hnd & Hlen & Hin).
    rewrite Hit. rewrite sMapIter_loop_drop by lia. rewrite drop_0.
    exists ks. eexists. split; [done|].
    assert (((λ k, (k, (Get s k (Iter g s σ).2).1)) <$> ks).*1 = ks) as Hfst.
    { rewrite <- list_fmap_compose. apply list_fmap_id. }
    split_and!; [done|done| |done|by rewrite length_fmap].
    apply live_loop_entries; [done..|].
    intros k v Hk. rewrite (Get_ext s k σ) by (by rewrite Hheap).
    by rewrite Get_lookup, Hk. }
  split.
  - destruct (Hloop f) as (ks & out & Hout & Hfst & Hks & Hperm & Hnd & Hlen).
    exists out. split_and!; [done|done|by rewrite Hfst| |done].
    rewrite Hfst, Hks. apply sort_keys_perm.
  - destruct (Hloop None) as (ks & out & Hout & Hfst & Hks & _).
    exists out. split; [done|]. by rewrite Hfst, Hks.
Qed.

Lemma sMapIter_Nexts_index n ks i k v s σ :
  i ≤ length ks →
  ∃ k' v', sMapIter_Nexts n (mk_sMapIter i (Some ks) k v (Some s)) σ
           = mk_sMapIter (Nat.min (i + n) (length ks)) (Some ks) k' v' (Some s)
    ∧ ((k' = k ∧ v' = v) ∨ (k' ∈ ks ∧ v' = (Get s k' σ).1)).
Proof.
  intros Hi. induction n as [|n (k' & v' & IH & Hheld)].
  { exists k, v. split; [|by left]. simpl. f_equal. lia. }
  rewrite sMapIter_Nexts_S, IH. unfold sMapIter_Next. cbn [it_i it_keys slice_len].
  case_bool_decide as Hend; cbn [snd].
  - exists k', v'. split; [|done]. f_equal. lia.
  - destruct (lookup_lt_is_Some_2 ks (Nat.min (i + n) (length ks))) as [x Hx]; [lia|].
    exists x, (Get s x σ).1. split.
    + unfold slice_index, it_map. cbn [it_keys it_i it_m].
      rewrite Hx. cbn [default]. f_equal. lia.
    + right. split; [|done]. by eapply list_elem_of_lookup_2.
Qed.

Lemma sMapIter_Nexts_exhausted n it σ :
  slice_len (it_keys it) ≤ it_i it → Nat.iter n (λ it', (sMapIter_Next it' σ).2) it = it.
Proof.
  intros Hend. induction n as [|n IH]; [done|].
  rewrite Nat.iter_succ, IH. unfold sMapIter_Next.
  by rewrite bool_decide_eq_true_2.
Qed.

(** X12. From a new live iterator [Next] returns true exactly [Len()]
    times: the call after [n] earlier ones succeeds exactly when
    [n < Len()], the index never passes [Len()], and once [Next] has
    returned false every further call returns false and changes nothing.
    What the iterator holds is the zero values or a key of the map with
    the value the map has for it. *)
Theorem Next_until_exhausted f s σ n :
  let it0 := (Iter f s σ).1 in
  let σ1 := (Iter f s σ).2 in
  (sMapIter_Next (sMapIter_Nexts n it0 σ1) σ1).1 = bool_decide (n < Len s σ)
  ∧ it_i (sMapIter_Nexts n it0 σ1) = Nat.min n (Len s σ)
  ∧ sMapIter_Next (sMapIter_Nexts (Len s σ + n) it0 σ1) σ1
    = (false, sMapIter_Nexts (Len s σ + n) it0 σ1)
  ∧ sMapIter_Nexts (Len s σ + n) it0 σ1 = sMapIter_Nexts (Len s σ) it0 σ1
  ∧ ((it_k (sMapIter_Nexts n it0 σ1) = zero ∧ it_v (sMapIter_Nexts n it0 σ1) = zero)
     ∨ deref σ (m s) !! it_k (sMapIter_Nexts n it0 σ1)
       = Some (it_v (sMapIter_Nexts n it0 σ1))).
Proof.
  intros it0 σ1. subst it0 σ1.
  destruct (Iter_start f s σ) as (ks & Hit & _ & Hheap & _ & Hlen & Hin).
  rewrite Hit. set (σ1 := (Iter f s σ).2).
  assert (∀ j, ∃ k' v',
    sMapIter_Nexts j (mk_sMapIter 0 (Some ks) zero zero (Some s)) σ1
    = mk_sMapIter (Nat.min j (length ks)) (Some ks) k' v' (Some s)
    ∧ ((k' = zero ∧ v' = zero) ∨ (k' ∈ ks ∧ v' = (Get s k' σ1).1))) as Hnexts.
  { intros j. destruct (sMapIter_Nexts_index j ks 0 zero zero s σ1) as (k' & v' & Hj);
      [lia|]. by exists k', v'. }
  destruct (Hnexts n) as (k1 & v1 & Hn & Hheld).
  destruct (Hnexts (Len s σ + n)) as (k2 & v2 & Hn2 & _).
  destruct (Hnexts (Len s σ)) as (k3 & v3 & Hn3 & _).
  split_and!.
  - rewrite Hn. unfold sMapIter_Next. cbn [it_i it_keys slice_len].
    rewrite Hlen. case_bool_decide; case_bool_decide; simpl; (done || lia).
  - rewrite Hn. simpl. by rewrite Hlen.
  - rewrite Hn2. unfold sMapIter_Next. cbn [it_i it_keys slice_len].
    rewrite bool_decide_eq_true_2; [done|lia].
  - rewrite (Nat.add_comm (Len s σ) n). unfold sMapIter_Nexts at 1.
    rewrite Nat.iter_add. fold (sMapIter_Nexts (Len s σ)
      (mk_sMapIter 0 (Some ks) zero zero (Some s)) σ1).
    apply sMapIter_Nexts_exhausted. rewrite Hn3. simpl. lia.
  - rewrite Hn. cbn [it_k it_v]. destruct Hheld as [Hz|[Hk ->]]; [by left|].
    right. apply Hin in Hk as [v Hv].
    rewrite (Get_ext s k1 σ σ1) by (unfold σ1; by rewrite Hheap).
    by rewrite Get_lookup, Hv.
Qed.

(** What holds of an iterator over a copy after any calls that move it. *)
Lemma rIter_calls_inv cs ks c σ :
  (∀ k, k ∈ ks → is_Some (deref σ c !! k)) →
  ∃ i k v,
    rIter_calls cs (mk_rIter 0 (Some ks) zero zero (Some c)) σ
    = mk_rIter i (Some ks) k v (Some c)
    ∧ i ≤ length ks
    ∧ ((k = zero ∧ v = zero) ∨ deref σ c !! k = Some v).
Proof.
  intros Hin.
  assert (∀ j, j < length ks →
    deref σ c !! slice_index (Some ks) j
    = Some (index σ (Some c) (slice_index (Some ks) j)).1) as Hload.
  { intros j Hj. destruct (lookup_lt_is_Some_2 ks j Hj) as [x Hx].
    unfold slice_index, index. rewrite Hx. simpl.
    destruct (Hin x) as [v Hv]; [by eapply list_elem_of_lookup_2|].
    by rewrite Hv. }
  induction cs as [|call cs (i & k & v & IH & Hi & Hheld)] using rev_ind.
  { exists 0, zero, zero. split_and!; [done|lia|by left]. }
  rewrite rIter_calls_snoc, IH.
  destruct call; cbn [rIter_call]; unfold rIter_End, rIter_Next, rIter_Prev, rIter_Rewind;
    cbn [r_i r_keys r_k r_v r_m slice_len]; case_bool_decide; cbn [snd].
  - exists i, k, v. by split_and!.
  - eexists _, _, _. split_and!; [done|lia|]. right. apply Hload. lia.
  - exists i, k, v. by split_and!.
  - eexists _, _, _. split_and!; [done|lia|]. right. apply Hload. lia.
  - exists 0, k, v. split_and!; [done|lia|done].
  - exists 0, k, v. split_and!; [done|lia|done].
  - exists (length ks), k, v. split_and!; [done|lia|done].
  - eexists _, _, _. split_and!; [done|lia|]. right. apply Hload. lia.
Qed.

Lemma RIter_calls_inv f s σ cs :
  ∃ c ks i k v,
    (RIter f s σ).1 = mk_rIter 0 (Some ks) zero zero (Some c)
    ∧ rIter_calls cs (RIter f s σ).1 (RIter f s σ).2 = mk_rIter i (Some ks) k v (Some c)
    ∧ deref (RIter f s σ).2 c = deref σ (m s)
    ∧ NoDup ks ∧ length ks = Len s σ
    ∧ (∀ k, k ∈ ks ↔ is_Some (deref σ (m s) !! k))
    ∧ i ≤ length ks
    ∧ ((k = zero ∧ v = zero) ∨ deref σ (m s) !! k = Some v).
Proof.
  destruct (RIter_start f s σ) as (c & ks & Hr & Hd & Hnd & Hlen & Hin).
  destruct (rIter_calls_inv cs ks c (RIter f s σ).2) as (i & k & v & Hcs & Hi & Hheld).
  { intros k Hk. rewrite Hd. by apply Hin. }
  exists c, ks, i, k, v. rewrite Hr. rewrite Hd in Hheld. by split_and!.
Qed.

(** X13. After any calls that move it, an iterator made by [RIter] keeps
    its index within the keys, so no call reads past either end: [Next]
    succeeds exactly when the index is below [Len()] at construction,
    [Prev] exactly when it is above 0, and [Rewind] and [End] exactly when
    the copy is not empty.  What the iterator holds is the zero values or
    an entry the source had at construction. *)
Theorem rIter_stays_in_bounds f s σ cs :
  let σ1 := (RIter f s σ).2 in
  let r := rIter_calls cs (RIter f s σ).1 σ1 in
  r_i r ≤ Len s σ
  ∧ slice_len (r_keys r) = Len s σ
  ∧ (rIter_Next r σ1).1 = bool_decide (r_i r < Len s σ)
  ∧ (rIter_Prev r σ1).1 = bool_decide (0 < r_i r)
  ∧ (rIter_Rewind r).1 = bool_decide (0 < Len s σ)
  ∧ (rIter_End r σ1).1 = bool_decide (0 < Len s σ)
  ∧ ((r_k r = zero ∧ r_v r = zero) ∨ deref σ (m s) !! r_k r = Some (r_v r)).
Proof.
  intros σ1 r. subst σ1 r.
  destruct (RIter_calls_inv f s σ cs)
    as (c & ks & i & k & v & _ & -> & _ & _ & Hlen & _ & Hi & Hheld).
  unfold rIter_End, rIter_Next, rIter_Prev, rIter_Rewind.
  cbn [r_i r_keys r_k r_v r_m slice_len]. rewrite <- Hlen.
  split_and!; [done|done|..|done];
    repeat case_bool_decide; simpl; (done || lia).
Qed.

(** X14. [Rewind] loads nothing: [Key] and [Val] return after it what
    they returned before it.  It puts the index back to 0, so the loop
    over the iterator then ends having seen all entries again, in the
    order of a new iterator. *)
Theorem Rewind_restarts f s σ cs n :
  let r0 := (RIter f s σ).1 in
  let σ1 := (RIter f s σ).2 in
  let r := rIter_calls cs r0 σ1 in
  rIter_Key (rIter_Rewind r).2 = rIter_Key r
  ∧ rIter_Val (rIter_Rewind r).2 = rIter_Val r
  ∧ r_i (rIter_Rewind r).2 = 0
  ∧ rIter_loop (S (Len s σ) + n) (rIter_Rewind r).2 σ1
    = rIter_loop (S (Len s σ) + n) r0 σ1
  ∧ ∃ out, rIter_loop (S (Len s σ) + n) r0 σ1 = Some out
      ∧ out ≡ₚ map_to_list (deref σ (m s)).
Proof.
  intros r0 σ1 r. subst r0 σ1 r.
  destruct (RIter_calls_inv f s σ cs)
    as (c & ks & i & k & v & -> & -> & Hd & Hnd & Hlen & Hin & Hi & Hheld).
  assert ((rIter_Rewind (mk_rIter i (Some ks) k v (Some c))).2
          = mk_rIter 0 (Some ks) k v (Some c)) as ->.
  { unfold rIter_Rewind. by case_bool_decide. }
  split_and!; [done..| |].
  - by rewrite !rIter_loop_drop by lia.
  - rewrite rIter_loop_drop by lia. rewrite drop_0. eexists. split; [done|].
    apply live_loop_entries; [done..|].
    intros k' v' Hk'. cbn [index]. by rewrite Hd, Hk'.
Qed.

Lemma rIter_back_take fuel i ks k c σ :
  i < fuel → ks !! i = Some k →
  rIter_back fuel (mk_rIter i (Some ks) k (index σ (Some c) k).1 (Some c)) σ
  = Some (reverse ((λ k, (k, (index σ (Some c) k).1)) <$> take (S i) ks)).
Proof.
  revert i k. induction fuel as [|fuel IH]; intros i k Hfuel Hk; [lia|].
  cbn [rIter_back]. unfold rIter_Key, rIter_Val, rIter_Prev.
  cbn [r_i r_keys r_k r_v r_m]. rewrite (take_S_r _ _ _ Hk), fmap_app, reverse_app.
  destruct i as [|j]; cbn [bool_decide decide_rel]; simpl.
  - done.
  - destruct (lookup_lt_is_Some_2 ks j) as [x Hx].
    { apply lookup_lt_Some in Hk. lia. }
    rewrite Hx. simpl. rewrite IH by (done || lia). done.
Qed.

(** X15. The walk back from [End] with [Prev] ends and sees the entries
    of the walk forward with [Next], in the opposite order, from wherever
    the iterator stood before [End]. *)
Theorem backward_is_reverse f s σ cs n :
  let r0 := (RIter f s σ).1 in
  let σ1 := (RIter f s σ).2 in
  let r := rIter_calls cs r0 σ1 in
  ∃ out,
    rIter_loop (S (Len s σ) + n) r0 σ1 = Some out
    ∧ rIter_backward (S (Len s σ) + n) r σ1 = Some (reverse out)
    ∧ out ≡ₚ map_to_list (deref σ (m s)).
Proof.
  intros r0 σ1 r. subst r0 σ1 r.
  destruct (RIter_calls_inv f s σ cs)
    as (c & ks & i & k & v & -> & -> & Hd & Hnd & Hlen & Hin & Hi & Hheld).
  rewrite rIter_loop_drop by lia. rewrite drop_0. eexists. split; [done|]. split.
  - set (σ1 := (RIter f s σ).2) in *. clearbody σ1.
    unfold rIter_backward, rIter_End, rIter_Prev.
    cbn [r_i r_keys r_k r_v r_m slice_len].
    destruct (decide (length ks = 0)) as [Hz|Hnz].
    { rewrite bool_decide_eq_true_2 by done.
      apply nil_length_inv in Hz. by subst. }
    rewrite bool_decide_eq_false_2 by done.
    destruct (lookup_lt_is_Some_2 ks (pred (length ks))) as [x Hx]; [lia|].
    unfold slice_index. rewrite Hx.
    change (default zero (Some x)) with x.
    rewrite (rIter_back_take _ (pred (length ks)) ks x c) by (done || lia).
    replace (S (pred (length ks))) with (length ks) by lia.
    by rewrite firstn_all.
  - apply live_loop_entries; [done..|].
    intros k' v' Hk'. cbn [index]. by rewrite Hd, Hk'.
Qed.

(** X16. When [Prev] succeeds, a call of [Next] right after succeeds too,
    reports the key and value [Prev] reported, and puts the index back
    where it was before [Prev]. *)
Theorem Next_after_Prev f s σ cs :
  let σ1 := (RIter f s σ).2 in
  let r := rIter_calls cs (RIter f s σ).1 σ1 in
  (rIter_Prev r σ1).1 = true →
  let p := (rIter_Prev r σ1).2 in
  (rIter_Next p σ1).1 = true
  ∧ rIter_Key (rIter_Next p σ1).2 = rIter_Key p
  ∧ rIter_Val (rIter_Next p σ1).2 = rIter_Val p
  ∧ r_i (rIter_Next p σ1).2 = r_i r.
Proof.
  intros σ1 r. subst σ1 r.
  destruct (RIter_calls_inv f s σ cs)
    as (c & ks & i & k & v & _ & -> & _ & _ & _ & _ & Hi & _).
  unfold rIter_Prev. cbn [r_i r_keys r_k r_v r_m].
  case_bool_decide as Hz; [done|]. intros _. cbn [snd].
  unfold rIter_Next. cbn [r_i r_keys r_k r_v r_m slice_len].
  rewrite bool_decide_eq_false_2 by lia. cbn [fst snd].
  unfold rIter_Key, rIter_Val. cbn [r_i r_keys r_k r_v r_m].
  split_and!; [done..|lia].
Qed.

(** X17. With a comparator that is a strict weak ordering, the loop over
    the iterator of [RIter] ends and yields the entries the source had at
    construction, each once, with no key less than an earlier one. *)
Theorem RIter_sorted f s σ n :
  StrictWeakOrder f →
  ∃ out,
    rIter_loop (S (Len s σ) + n) (RIter (Some f) s σ).1 (RIter (Some f) s σ).2
    = Some out
    ∧ out ≡ₚ map_to_list (deref σ (m s))
    ∧ StronglySorted (λ a b, f b a = false) out.*1.
Proof.
  intros Hf.
  destruct (RIter_store (Some f) s σ) as (c & ks & Hr & [j Hks] & _ & Hd & _).
  destruct (sort_keys_of_range (Some f) j (deref σ (m s))) as (Hnd & Hlen & Hin).
  rewrite <- Hks in Hnd, Hlen, Hin. rewrite Hr.
  rewrite rIter_loop_drop by (unfold Len, len; lia). rewrite drop_0.
  eexists. split; [done|]. split.
  - apply live_loop_entries; [done..|].
    intros k' v' Hk'. cbn [index]. by rewrite Hd, Hk'.
  - rewrite <- list_fmap_compose.
    rewrite (list_fmap_ext _ id (sort_keys (Some f) ks)) by done.
    rewrite list_fmap_id. by apply SliceStable_sorted.
Qed.
End iterators_more.

(** *** Runs of the further statements on the maps of the tests *)

Lemma Delete_removes_witness :
  heap (Delete Trial.sorted_test.1 [21%Z; 4%Z] Trial.sorted_test.2) !! Trial.init
  = heap Trial.sorted_test.2 !! Trial.init.
Proof.
  apply (Delete_removes Trial.sorted_test.1 [21%Z; 4%Z] Trial.sorted_test.2).
  by vm_compute.
Defined.

Lemma Raw_detached_witness :
  ∃ ret, (Raw Trial.sorted_test.1 Trial.sorted_test.2).1 = Some ret
    ∧ deref (mutate_all Trial.sorted_test.1 [MDelete [21%Z]; MSet 1%Z 5%Z]
               (Raw Trial.sorted_test.1 Trial.sorted_test.2).2) ret
      = deref Trial.sorted_test.2 (m Trial.sorted_test.1).
Proof.
  destruct (Raw_detached Trial.sorted_test.1 Trial.sorted_test.2 Trial_sorted_allocated)
    as (ret & Hret & _ & _ & _ & Hcopy & _).
  exists ret. split; [exact Hret|apply Hcopy].
Defined.

Lemma New_detached_from_init_witness :
  Get (New (Some Trial.init) (Trial.literal [(1, 1); (2, 2)]%Z)).1 1%Z
    (store (New (Some Trial.init) (Trial.literal [(1, 1); (2, 2)]%Z)).2
       Trial.init 1%Z 7%Z)
  = Get (New (Some Trial.init) (Trial.literal [(1, 1); (2, 2)]%Z)).1 1%Z
      (New (Some Trial.init) (Trial.literal [(1, 1); (2, 2)]%Z)).2.
Proof.
  apply (New_detached_from_init Trial.init (Trial.literal [(1, 1); (2, 2)]%Z)).
  vm_compute. eexists. reflexivity.
Defined.

Lemma Merge_keys_union_witness :
  heap (Merge Trial.merge_test.1 (Some Trial.init) false Trial.merge_test.2)
    !! Trial.init
  = heap Trial.merge_test.2 !! Trial.init.
Proof.
  apply (Merge_keys_union Trial.merge_test.1 (Some Trial.init) false Trial.merge_test.2).
  by vm_compute.
Defined.

Lemma Next_after_Prev_witness :
  let s := Trial.sorted_test.1 in
  let σ := Trial.sorted_test.2 in
  let σ1 := (RIter (Some Trial.ascending) s σ).2 in
  let r := rIter_calls [RNext; RNext; RNext] (RIter (Some Trial.ascending) s σ).1 σ1 in
  (rIter_Next (rIter_Prev r σ1).2 σ1).1 = true
  ∧ rIter_Key (rIter_Next (rIter_Prev r σ1).2 σ1).2 = rIter_Key (rIter_Prev r σ1).2.
Proof.
  intros s σ σ1 r.
  destruct (Next_after_Prev (Some Trial.ascending) s σ [RNext; RNext; RNext])
    as (Htrue & Hkey & _).
  - by vm_compute.
  - split; [exact Htrue | exact Hkey].
Defined.

Lemma RIter_sorted_witness :
  ∃ out,
    rIter_loop 7 (RIter (Some Trial.ascending) Trial.sorted_test.1 Trial.sorted_test.2).1
      (RIter (Some Trial.ascending) Trial.sorted_test.1 Trial.sorted_test.2).2
    = Some out
    ∧ StronglySorted (λ a b, Trial.ascending b a = false) out.*1.
Proof.
  destruct (RIter_sorted Trial.ascending Trial.sorted_test.1 Trial.sorted_test.2 0
              ascending_StrictWeakOrder) as (out & Hout & _ & Hsorted).
  exists out. split; [exact Hout | exact Hsorted].
Defined.

(** ** The lock: [Iter] holds it for reading until [Close] *)
Section lock_facts.
Context {K : Type} `{Countable K} {V : Type}.
Context `{!Zero K, !Zero V, !RangeOrder K V}.
Implicit Types (σ : state (K := K) (V := V)) (s : sMap) (mu : RWMutex).
Implicit Types (w : world (K := K) (V := V)) (c : mutation (K := K) (V := V)).
Implicit Types (it : sMapIter (K := K) (V := V)).

(** The methods of read mode when nobody writes or waits to write: they
    return what the method without the lock returns and leave the lock
    as they found it. *)
Lemma New_mu_returns init σ :
  New_mu init σ = Returns ((New init σ).1, unlocked, (New init σ).2).
Proof.
  unfold New_mu, New, Merge_mu. destruct (make_map σ) as [l σ1].
  case_bool_decide as Hlen; simpl.
  - by rewrite Merge_empty.
  - done.
Qed.

Lemma read_mode_returns s r σ :
  let mu := mkRWMutex r false 0 in
  (∀ k, Get_mu s k mu σ = Returns (Get s k σ, mu))
  ∧ Len_mu s mu σ = Returns (Len s σ, mu)
  ∧ Keys_mu s mu σ = Returns ((Keys s σ).1, mu, (Keys s σ).2)
  ∧ Raw_mu s mu σ = Returns ((Raw s σ).1, mu, (Raw s σ).2)
  ∧ (∀ cb, Filter_mu cb s mu σ = Returns ((Filter cb s σ).1, mu, (Filter cb s σ).2))
  ∧ Clone_mu s mu σ = Returns ((Clone s σ).1, unlocked, mu, (Clone s σ).2)
  ∧ (∀ f, RIter_mu f s mu σ = Returns ((RIter f s σ).1, mu, (RIter f s σ).2)).
Proof.
  intros mu. split_and!.
  - done.
  - done.
  - unfold Keys_mu. simpl. by destruct (Keys s σ).
  - unfold Raw_mu. simpl. by destruct (Raw s σ).
  - intros cb. unfold Filter_mu. simpl. by destruct (Filter cb s σ).
  - unfold Clone_mu, Clone. simpl. by rewrite New_mu_returns.
  - intros f. unfold RIter_mu, RIter, Raw_mu. simpl.
    destruct (Raw s σ) as [cpy σ1]. simpl. by destruct (range_map σ1 cpy).
Qed.

Lemma read_mode_blocks s r q σ (qy : query) :
  query_mu s qy (mkRWMutex r false (S q)) σ = Blocks (mkRWMutex r false (S q)).
Proof. by destruct qy. Qed.

Lemma query_mu_returns s r σ (qy : query) :
  ∃ σ', query_mu s qy (mkRWMutex r false 0) σ = Returns (mkRWMutex r false 0, σ').
Proof.
  destruct (read_mode_returns s r σ) as (Hget & Hlen & Hkeys & Hraw & Hfilter & Hclone & Hriter).
  destruct qy; cbn [query_mu].
  - rewrite Hget. by eexists.
  - rewrite Hlen. by eexists.
  - rewrite Hkeys. by eexists.
  - rewrite Hraw. by eexists.
  - rewrite Hfilter. by eexists.
  - rewrite Hclone. by eexists.
  - rewrite Hriter. by eexists.
Qed.

Lemma Iter_mu_returns f s r σ :
  Iter_mu f s (mkRWMutex r false 0) σ
  = Returns ((Iter f s σ).1, mkRWMutex (S r) false 0, (Iter f s σ).2).
Proof. unfold Iter_mu, Iter, Keys_mu. simpl. by destruct (Keys s σ). Qed.

Lemma Iter_mu_blocks f s r q σ :
  Iter_mu f s (mkRWMutex r false (S q)) σ = Blocks (mkRWMutex r false (S q)).
Proof. done. Qed.

(** The methods of write mode while somebody reads. *)
Lemma write_mode_blocks s r q σ :
  let mu := mkRWMutex (S r) false q in
  let mu' := mkRWMutex (S r) false (S q) in
  (∀ k v, Set_mu s k v mu σ = Blocks mu')
  ∧ (∀ k v, CAS_mu s k v mu σ = Blocks mu')
  ∧ (∀ keys, Delete_mu s keys mu σ = Blocks mu')
  ∧ (∀ src overwrite,
       Merge_mu s src overwrite mu σ
       = if bool_decide (len σ src = 0) then Returns (mu, σ) else Blocks mu').
Proof.
  intros mu mu'. by split_and!.
Qed.

(** The methods of write mode when the lock is free. *)
Lemma mutate_mu_free s c σ :
  mutate_mu s c unlocked σ = Returns (unlocked, mutate s c σ).
Proof.
  destruct c as [k v|k v|keys|src overwrite]; simpl; try done.
  - unfold CAS_mu. simpl. by destruct (CAS s k v σ).
  - unfold Merge_mu. case_bool_decide as Hlen; [|done].
    by rewrite Merge_empty.
Qed.

Lemma mutate_mu_waits s c r q σ :
  r ≠ 0 ∨ q ≠ 0 →
  mutate_mu s c (mkRWMutex r false q) σ = Blocks (mkRWMutex r false (S q))
  ∨ (mutate_mu s c (mkRWMutex r false q) σ = Returns (mkRWMutex r false q, σ)
     ∧ mutate s c σ = σ).
Proof.
  intros Hbusy.
  assert (Lock (mkRWMutex r false q) = Blocks (mkRWMutex r false (S q))) as Hlock.
  { unfold Lock. destruct r, q; simpl; try done. by destruct Hbusy. }
  destruct c as [k v|k v|keys|src overwrite]; cbn [mutate_mu].
  - left. unfold Set_mu. by rewrite Hlock.
  - left. unfold CAS_mu. by rewrite Hlock.
  - left. unfold Delete_mu. by rewrite Hlock.
  - unfold Merge_mu. case_bool_decide as Hlen.
    + right. split; [done|]. by apply Merge_empty.
    + left. by rewrite Hlock.
Qed.
End lock_facts.

Section lock_claims.
Context {K : Type} `{Countable K} {V : Type}.
Context `{!Zero K, !Zero V, !RangeOrder K V}.
Implicit Types (σ : state (K := K) (V := V)) (s : sMap) (mu : RWMutex).
Implicit Types (w : world (K := K) (V := V)) (c : mutation (K := K) (V := V)).
Implicit Types (it : sMapIter (K := K) (V := V)).

(** Between calls nobody holds the lock for writing, those who hold it
    for reading are the open iterators, and those who wait are the calls
    of write mode that blocked. *)
Lemma step_counts s w (c0 : call) :
  readers (w_mu w) = w_open w ∧ writer (w_mu w) = false
  ∧ waiting (w_mu w) = length (w_pending w) →
  readers (w_mu (step s w c0)) = w_open (step s w c0)
  ∧ writer (w_mu (step s w c0)) = false
  ∧ waiting (w_mu (step s w c0)) = length (w_pending (step s w c0)).
Proof.
  destruct w as [[r wr q] σ o p]. simpl. intros (-> & -> & ->).
  destruct c0 as [qy|c|f|it|]; cbn [step w_mu w_st w_open w_pending].
  - destruct p as [|c p]; cbn [length].
    + destruct (query_mu_returns s o σ qy) as [σ' ->]. done.
    + by rewrite read_mode_blocks.
  - destruct (decide (o = 0 ∧ length p = 0)) as [[-> Hp]|Hbusy].
    + rewrite Hp. fold unlocked. by rewrite mutate_mu_free.
    + destruct (mutate_mu_waits s c o (length p) σ) as [->|[-> _]].
      * lia.
      * simpl. rewrite length_app. simpl. split_and!; [done..|lia].
      * done.
  - destruct p as [|c p]; cbn [length].
    + by rewrite Iter_mu_returns.
    + by rewrite Iter_mu_blocks.
  - by destruct o.
  - destruct p as [|c p]; [done|]. by destruct o.
Qed.

Lemma run_counts s (cs : list call) w :
  readers (w_mu w) = w_open w ∧ writer (w_mu w) = false
  ∧ waiting (w_mu w) = length (w_pending w) →
  readers (w_mu (run s cs w)) = w_open (run s cs w)
  ∧ writer (w_mu (run s cs w)) = false
  ∧ waiting (w_mu (run s cs w)) = length (w_pending (run s cs w)).
Proof.
  unfold run. revert w. induction cs as [|c0 cs IH]; intros w Hw; [done|].
  simpl. by apply IH, step_counts.
Qed.

End lock_claims.


